(** * The OPML-driven RSS poller ([ai_assistant/commands/opml.py])

    A shallow embedding of the three parts of the poller:
    - the feed list loader [fetch_opml], which walks the document that
      xmltodict's [parse] returns;
    - the bounded fetcher [fetch_rss], run under an [asyncio.Semaphore] by
      [fetch_all_rss];
    - the round driver [async_fetch], which shuffles the list and runs rounds.

    Python values are an inductive type, exceptions are an error monad, log
    lines and awaits are recorded as events, and the interleaving of the
    coroutines of one round is a step relation whose steps are the [await]
    points of the source. *)

From Stdlib Require Import ZArith Lia.
From stdpp Require Import base tactics option list strings relations.

Set Warnings "-register-all".
Open Scope Z_scope.

(** ** Python values and exceptions *)

Module Py.

(** The values the poller handles: what [xmltodict.parse] builds (mappings,
    lists, strings and [None]) and what [Response.json] builds (the same, and
    booleans and numbers; integers stand for all JSON numbers). A mapping keeps
    its entries in insertion order, and its keys are looked up from the front. *)
Inductive value : Type :=
| VNone
| VBool (b : bool)
| VNum (n : Z)
| VStr (s : string)
| VList (items : list value)
| VDict (entries : list (string * value)).

(** The exception classes that occur. [CancelledError] derives from
    [BaseException] only; all others derive from [Exception]. *)
Inductive exn : Type :=
| KeyError (key : string)
| TypeError
| ValueError (msg : string)
| JSONDecodeError
| UnicodeDecodeError
| HTTPStatusError (status : Z)
| ConnectError
| TimeoutException
| CancelledError.

(** [isinstance(e, Exception)] *)
Definition is_Exception (e : exn) : bool :=
  match e with
  | CancelledError => false
  | _ => true
  end.

(** [isinstance(e, KeyError)] *)
Definition is_KeyError (e : exn) : bool :=
  match e with
  | KeyError _ => true
  | _ => false
  end.

(** [isinstance(e, json.JSONDecodeError)] *)
Definition is_JSONDecodeError (e : exn) : bool :=
  match e with
  | JSONDecodeError => true
  | _ => false
  end.

(** A computation that returns or raises. *)
Inductive result (A : Type) : Type :=
| Ok (a : A)
| Raise (e : exn).
Arguments Ok {A} a.
Arguments Raise {A} e.

Definition bind {A B : Type} (m : result A) (k : A -> result B) : result B :=
  match m with
  | Ok a => k a
  | Raise e => Raise e
  end.

(** [d[key]] on the entries of a mapping. *)
Fixpoint dict_get (key : string) (entries : list (string * value)) : option value :=
  match entries with
  | [] => None
  | (k, v) :: rest => if String.eqb k key then Some v else dict_get key rest
  end.

(** [v[key]] for a string [key]: a mapping looks the key up and raises
    [KeyError] when it is missing; a list or a string takes integer indices
    only, and [None], booleans and numbers are not subscriptable. *)
Definition subscript (v : value) (key : string) : result value :=
  match v with
  | VDict entries =>
      match dict_get key entries with
      | Some x => Ok x
      | None => Raise (KeyError key)
      end
  | _ => Raise TypeError
  end.

(** [isinstance(v, list)] and [isinstance(v, dict)] *)
Definition is_list (v : value) : bool :=
  match v with VList _ => true | _ => false end.
Definition is_dict (v : value) : bool :=
  match v with VDict _ => true | _ => false end.

Fixpoint chars (s : string) : list value :=
  match s with
  | EmptyString => []
  | String c rest => VStr (String c EmptyString) :: chars rest
  end.

(** [for x in v]: the items of a list, the keys of a mapping, the characters
    of a string; anything else is not iterable. *)
Definition iterate (v : value) : result (list value) :=
  match v with
  | VList items => Ok items
  | VDict entries => Ok (map (fun kv => VStr (fst kv)) entries)
  | VStr s => Ok (chars s)
  | _ => Raise TypeError
  end.

End Py.
Export Py.

Notation "x <- m ;; k" := (bind m (fun x => k))
  (at level 100, m at next level, right associativity).

(** ** Log records *)

Inductive level : Type := DEBUG | INFO | WARNING | ERROR.

(** The message of each logging call of the module, with the values its
    f-string interpolates. *)
Inductive message : Type :=
| MsgOpmlFormat (line : value)
| MsgMaybeOffline (url : value) (status : Z)
| MsgMaybeProtected (url : value) (status : Z)
| MsgJsonDecode (url : value) (text : string)
| MsgFeed (title homepage url : value)
| MsgFailed (url : value) (e : exn).

(** [exc_info] is set when the call asks for the traceback of the exception
    being handled. *)
Record log_record : Type := LogRecord {
  log_level : level;
  exc_info : bool;
  log_msg : message
}.

(** ** The feed list loader *)

Module Loader.

(** The [ValueError] raised for a document of the wrong shape. *)
Definition format_error : exn := ValueError "OPML 文件格式错误".

(** The inner loop [for item in line["outline"]]: one URL per item. *)
Fixpoint collect_items (items : list value) (urllist : list value)
  : result (list value) :=
  match items with
  | [] => Ok urllist
  | item :: rest =>
      url <- subscript item "@xmlUrl" ;;
      collect_items rest (urllist ++ [url])
  end.

(** The loop [for line in outline] over the groups, threading [urllist] and
    the log. The log is a side effect: it keeps what was written before an
    exception; the list is lost with the frame. *)
Fixpoint collect_groups (lines : list value) (urllist : list value)
    (log : list log_record) : list log_record * result (list value) :=
  match lines with
  | [] => (log, Ok urllist)
  | line :: rest =>
      match subscript line "outline" with
      | Raise e => (log, Raise e)
      | Ok inner =>
          if is_list inner then
            match (items <- iterate inner ;; collect_items items urllist) with
            | Raise e => (log, Raise e)
            | Ok urllist' => collect_groups rest urllist' log
            end
          else if is_dict inner then
            match (o <- subscript line "outline" ;; subscript o "@xmlUrl") with
            | Raise e => (log, Raise e)
            | Ok url => collect_groups rest (urllist ++ [url]) log
            end
          else
            collect_groups rest urllist
              (log ++ [LogRecord ERROR false (MsgOpmlFormat line)])
      end
  end.

(** [body["opml"]["body"]["outline"]] *)
Definition find_outline (body : value) : result value :=
  opml <- subscript body "opml" ;;
  b <- subscript opml "body" ;;
  subscript b "outline".

(** The body of the [try]: find the outline, then loop over it. *)
Definition fetch_opml_try (body : value)
  : list log_record * result (list value) :=
  match (outline <- find_outline body ;; iterate outline) with
  | Raise e => ([], Raise e)
  | Ok lines => collect_groups lines [] []
  end.

(** [fetch_opml], from the parsed document on: [body] is what [parse] returns
    for the text of the file (reading and parsing come before the [try], and
    what they raise is not handled here). [except KeyError] turns a missing
    key into the format error; any other exception goes through. *)
Definition fetch_opml (body : value) : list log_record * result (list value) :=
  let (log, r) := fetch_opml_try body in
  match r with
  | Raise e => if is_KeyError e then (log, Raise format_error) else (log, Raise e)
  | Ok urllist => (log, Ok urllist)
  end.

(** The document [<opml><body> groups </body></opml>] with several groups:
    [parse] gives the list of the groups under ["outline"]. *)
Definition opml_of_outline (outline : value) : value :=
  VDict [("opml", VDict [("body", VDict [("outline", outline)])])].

(** How the specification reads a group: several children (a list under
    ["outline"]), one child (a mapping under ["outline"]), or neither. *)
Inductive shape : Type := MultiChild | SingleChild | Neither.

Definition group_shape (line : value) : shape :=
  match subscript line "outline" with
  | Ok (VList _) => MultiChild
  | Ok (VDict _) => SingleChild
  | _ => Neither
  end.

(** A child that carries a feed URL. *)
Inductive child_url : value -> value -> Prop :=
| child_url_intro c u :
    dict_get "@xmlUrl" c = Some u -> child_url (VDict c) u.

(** What one group contributes when the loader gets past it: the URLs of a
    well-formed group, or nothing and one log record for a group whose
    ["outline"] entry is neither a list nor a mapping. *)
Inductive group_yield : value -> list value -> list log_record -> Prop :=
| yield_multi g items urls :
    dict_get "outline" g = Some (VList items) ->
    Forall2 child_url items urls ->
    group_yield (VDict g) urls []
| yield_single g c u :
    dict_get "outline" g = Some (VDict c) ->
    dict_get "@xmlUrl" c = Some u ->
    group_yield (VDict g) [u] []
| yield_anomalous g v :
    dict_get "outline" g = Some v ->
    is_list v = false ->
    is_dict v = false ->
    group_yield (VDict g) []
      [LogRecord ERROR false (MsgOpmlFormat (VDict g))].

Inductive groups_yield : list value -> list value -> list log_record -> Prop :=
| yield_nil : groups_yield [] [] []
| yield_cons line rest urls log urls' log' :
    group_yield line urls log ->
    groups_yield rest urls' log' ->
    groups_yield (line :: rest) (urls ++ urls') (log ++ log').

(** How the loop body raises on one group: the group is not a mapping, it
    has no ["outline"] entry, one of its children cannot give its URL, or
    its only child has no URL. *)
Inductive group_fails : value -> exn -> Prop :=
| fails_not_mapping line :
    is_dict line = false ->
    group_fails line TypeError
| fails_no_outline g :
    dict_get "outline" g = None ->
    group_fails (VDict g) (KeyError "outline")
| fails_child g items1 urls1 item items2 e :
    dict_get "outline" g = Some (VList (items1 ++ item :: items2)) ->
    Forall2 child_url items1 urls1 ->
    subscript item "@xmlUrl" = Raise e ->
    group_fails (VDict g) e
| fails_only_child g c :
    dict_get "outline" g = Some (VDict c) ->
    dict_get "@xmlUrl" c = None ->
    group_fails (VDict g) (KeyError "@xmlUrl").

(** What [except KeyError] makes of an exception of the [try] block. *)
Definition reported (e : exn) : exn :=
  if is_KeyError e then format_error else e.

End Loader.
Export Loader.

(** ** The bounded fetcher *)

Module Fetcher.

(** What the code reads of an [httpx.Response]: the status code, what
    [resp.json()] returns or raises, and [resp.text]. *)
Record response : Type := Response {
  status_code : Z;
  json : result value;
  text : string
}.

(** How [await client.get(url, timeout=60, follow_redirects=True)] ends: it
    raises (network, timeout, a URL it cannot use, cancellation) or returns a
    response. *)
Inductive get_outcome : Type :=
| GetRaises (e : exn)
| GetReturns (resp : response).

Definition await_get (o : get_outcome) : result response :=
  match o with
  | GetRaises e => Raise e
  | GetReturns resp => Ok resp
  end.

(** httpx: a response [is_success] when its status is 2xx, and
    [raise_for_status] raises [HTTPStatusError] for any other. *)
Definition is_success (status : Z) : bool :=
  (200 <=? status) && (status <=? 299).

Definition raise_for_status (resp : response) : result unit :=
  if is_success (status_code resp) then Ok tt
  else Raise (HTTPStatusError (status_code resp)).

(** The parameter default [wait_time: int = 3]. *)
Definition default_wait_time : Z := 3.

(** The body of the [try] of [fetch_rss], after the request was sent. Every
    path that does not raise writes one log record and then awaits one
    [asyncio.sleep]: the result is that record and the seconds slept. *)
Definition fetch_rss_try (url : value) (wait_time : Z) (o : get_outcome)
  : result (log_record * Z) :=
  resp <- await_get o ;;
  let status := status_code resp in
  if (status =? 502) || (status =? 530) then
    Ok (LogRecord DEBUG false (MsgMaybeOffline url status), wait_time * 2)
  else if (status =? 403) || (status =? 401) then
    Ok (LogRecord DEBUG false (MsgMaybeProtected url status), wait_time * 2)
  else
    _ <- raise_for_status resp ;;
    match json resp with
    | Raise e =>
        if is_JSONDecodeError e then
          Ok (LogRecord WARNING false (MsgJsonDecode url (text resp)),
              wait_time * 3)
        else Raise e
    | Ok data =>
        title <- subscript data "title" ;;
        homepage <- subscript data "home_page_url" ;;
        Ok (LogRecord INFO false (MsgFeed title homepage url), wait_time)
    end.

(** The [try] with its handler [except Exception as e]. *)
Definition fetch_rss_guarded (url : value) (wait_time : Z) (o : get_outcome)
  : result (log_record * Z) :=
  match fetch_rss_try url wait_time o with
  | Raise e =>
      if is_Exception e then
        Ok (LogRecord ERROR true (MsgFailed url e), wait_time * 3)
      else Raise e
  | Ok done => Ok done
  end.

(** What one coroutine does, in order. *)
Inductive event : Type :=
| EvAcquire
| EvGet (url : value)
| EvLog (r : log_record)
| EvSleep (seconds : Z)
| EvRelease.

(** [fetch_rss] run on its own: the events of the coroutine and how it ends.
    [async with semaphore] acquires before the request and releases on every
    way out. The outcome of the request is the only thing the environment
    decides here: the wait for the slot and the sleeps run to their end
    (their cancellation is in [step_or_cancel]). *)
Definition fetch_rss (url : value) (wait_time : Z) (o : get_outcome)
  : list event * result unit :=
  match fetch_rss_guarded url wait_time o with
  | Ok (r, seconds) =>
      ([EvAcquire; EvGet url; EvLog r; EvSleep seconds; EvRelease], Ok tt)
  | Raise e => ([EvAcquire; EvGet url; EvRelease], Raise e)
  end.

(** What the environment raises into the coroutine, if anything: from the
    request, or from decoding the body. *)
Definition injected (o : get_outcome) : option exn :=
  match o with
  | GetRaises e => Some e
  | GetReturns resp =>
      match json resp with
      | Raise e => Some e
      | Ok _ => None
      end
  end.

(** The environment raises nothing outside [Exception] (no cancellation). *)
Definition ordinary (o : get_outcome) : bool :=
  match injected o with
  | Some e => is_Exception e
  | None => true
  end.

(** [resp.status_code in (502, 530)] or [in (403, 401)] *)
Definition cooldown_status (status : Z) : bool :=
  (status =? 502) || (status =? 530) || (status =? 403) || (status =? 401).

Definition is_get (ev : event) : bool :=
  match ev with EvGet _ => true | _ => false end.

(** The requests a coroutine sent. *)
Definition requests (trace : list event) : list event := filter is_get trace.

(** The base waits slept after a record of each level. *)
Definition cooldown_factor (l : level) : Z :=
  match l with
  | INFO => 1
  | DEBUG => 2
  | WARNING | ERROR => 3
  end.

Definition is_ERROR (l : level) : bool :=
  match l with ERROR => true | _ => false end.

End Fetcher.
Export Fetcher.

(** ** One round: the coroutines of [fetch_all_rss] under the semaphore *)

Module Round.

(** Where a coroutine is suspended: at [async with semaphore], at
    [await client.get], at [await asyncio.sleep], or not any more. *)
Inductive phase : Type :=
| Waiting
| InFlight
| Sleeping (seconds : Z)
| Finished (r : result unit).

Record task : Type := Task {
  task_url : value;
  task_phase : phase;
  task_trace : list event
}.

(** The semaphore's counter and the coroutines handed to [asyncio.gather]. *)
Record round_state : Type := RoundState {
  sem_value : Z;
  tasks : list task
}.

Definition spawn (url : value) : task := Task url Waiting [].

(** [asyncio.Semaphore(max_concurrent)] refuses a negative value; then one
    coroutine per entry of [urllist]. *)
Definition round_init (urllist : list value) (max_concurrent : Z)
  : result round_state :=
  if max_concurrent <? 0 then
    Raise (ValueError "Semaphore initial value must be >= 0")
  else Ok (RoundState max_concurrent (map spawn urllist)).

(** One step of the event loop: it resumes one coroutine and runs it to its
    next [await]. A coroutine gets past [async with semaphore] only while the
    counter is positive. The response, or the exception, of a request is the
    environment's choice. Of cancellation, [step] has the one delivered at
    [client.get]; [step_or_cancel] below adds the others. *)
Inductive step : round_state -> round_state -> Prop :=
| step_acquire v pre url tr post :
    0 < v ->
    step (RoundState v (pre ++ Task url Waiting tr :: post))
         (RoundState (v - 1)
            (pre ++ Task url InFlight (tr ++ [EvAcquire; EvGet url]) :: post))
| step_respond v pre url tr post o r seconds :
    fetch_rss_guarded url default_wait_time o = Ok (r, seconds) ->
    step (RoundState v (pre ++ Task url InFlight tr :: post))
         (RoundState v
            (pre ++ Task url (Sleeping seconds) (tr ++ [EvLog r]) :: post))
| step_interrupt v pre url tr post o e :
    fetch_rss_guarded url default_wait_time o = Raise e ->
    step (RoundState v (pre ++ Task url InFlight tr :: post))
         (RoundState (v + 1)
            (pre ++ Task url (Finished (Raise e)) (tr ++ [EvRelease]) :: post))
| step_wake v pre url tr post seconds :
    step (RoundState v (pre ++ Task url (Sleeping seconds) tr :: post))
         (RoundState (v + 1)
            (pre ++ Task url (Finished (Ok tt))
                      (tr ++ [EvSleep seconds; EvRelease]) :: post)).

(** [step], and the cancellations it leaves out. A coroutine cancelled
    while it waits at [async with semaphore] ends without a slot: it
    acquired none and releases none. A coroutine cancelled in one of its
    [asyncio.sleep] ends too: [CancelledError] is no [Exception], so no
    handler catches it, and leaving [async with semaphore] gives the slot
    back. *)
Inductive step_or_cancel : round_state -> round_state -> Prop :=
| uninterrupted s s' :
    step s s' ->
    step_or_cancel s s'
| cancel_waiting v pre url tr post :
    step_or_cancel
      (RoundState v (pre ++ Task url Waiting tr :: post))
      (RoundState v
         (pre ++ Task url (Finished (Raise CancelledError)) tr :: post))
| cancel_sleeping v pre url tr post seconds :
    step_or_cancel
      (RoundState v (pre ++ Task url (Sleeping seconds) tr :: post))
      (RoundState (v + 1)
         (pre ++ Task url (Finished (Raise CancelledError))
                   (tr ++ [EvRelease]) :: post)).

Definition is_in_flight (t : task) : bool :=
  match task_phase t with InFlight => true | _ => false end.

(** Inside [async with semaphore]. *)
Definition holds_slot (t : task) : bool :=
  match task_phase t with InFlight | Sleeping _ => true | _ => false end.

Definition is_finished (t : task) : bool :=
  match task_phase t with Finished _ => true | _ => false end.

(** The requests sent and not yet answered. *)
Definition in_flight (s : round_state) : Z :=
  Z.of_nat (length (filter is_in_flight (tasks s))).

Definition slots_held (s : round_state) : Z :=
  Z.of_nat (length (filter holds_slot (tasks s))).

Definition all_finished (s : round_state) : bool :=
  forallb is_finished (tasks s).

(** The awaits a coroutine still has before it. *)
Definition steps_left (t : task) : nat :=
  match task_phase t with
  | Waiting => 3
  | InFlight => 2
  | Sleeping _ => 1
  | Finished _ => 0
  end.

Definition remaining (s : round_state) : nat :=
  list_sum (map steps_left (tasks s)).

(** The trace and the end of a coroutine that is over. *)
Definition task_run (t : task) : list event * result unit :=
  (task_trace t,
   match task_phase t with
   | Finished r => r
   | _ => Ok tt
   end).

(** The counter and the coroutines inside [async with semaphore] add up to
    the initial value of the semaphore. *)
Definition slots_accounted (max_concurrent : Z) (s : round_state) : Prop :=
  sem_value s + slots_held s = max_concurrent /\ 0 <= sem_value s.

(** What the trace of a coroutine is at each of its awaits. *)
Definition task_consistent (t : task) : Prop :=
  match task_phase t with
  | Waiting => task_trace t = []
  | InFlight => task_trace t = [EvAcquire; EvGet (task_url t)]
  | Sleeping seconds =>
      exists o r,
        fetch_rss_guarded (task_url t) default_wait_time o = Ok (r, seconds)
        /\ task_trace t = [EvAcquire; EvGet (task_url t); EvLog r]
  | Finished res =>
      exists o,
        fetch_rss (task_url t) default_wait_time o = (task_trace t, res)
  end.

Definition round_consistent (urllist : list value) (s : round_state) : Prop :=
  Forall task_consistent (tasks s) /\ map task_url (tasks s) = urllist.

(** [task_consistent] for a round with cancellations: of a coroutine that
    ended with an exception only the requests are kept track of. *)
Definition task_sound (t : task) : Prop :=
  match task_phase t with
  | Finished (Raise _) =>
      requests (task_trace t) = []
      \/ requests (task_trace t) = [EvGet (task_url t)]
  | _ => task_consistent t
  end.

Definition returned (t : task) : bool :=
  match task_phase t with Finished (Ok _) => true | _ => false end.

(** How a round ends for the coroutine that awaits it. *)
Inductive round_result : Type :=
| RoundRaised (e : exn)
| RoundBlocked
| RoundDone (traces : list (list event)).

(** [await asyncio.gather( *tasks )]: the first exception among the
    coroutines, taken in the order of the list, or all their traces. *)
Fixpoint gather (runs : list (list event * result unit)) : round_result :=
  match runs with
  | [] => RoundDone []
  | (trace, Ok _) :: rest =>
      match gather rest with
      | RoundDone traces => RoundDone (trace :: traces)
      | other => other
      end
  | (_, Raise e) :: _ => RoundRaised e
  end.

(** The coroutines of a round run to their end; [outcomes i] is how the
    request of the [i]-th coroutine ends. *)
Fixpoint run_tasks (outcomes : nat -> get_outcome) (urllist : list value)
  : list (list event * result unit) :=
  match urllist with
  | [] => []
  | url :: rest =>
      fetch_rss url default_wait_time (outcomes 0%nat)
      :: run_tasks (fun i => outcomes (S i)) rest
  end.

(** [fetch_all_rss] as the round driver sees it. With no slot at all the
    coroutines of a list that is not empty wait for ever. *)
Definition fetch_all_rss (outcomes : nat -> get_outcome)
    (urllist : list value) (max_concurrent : Z) : round_result :=
  match round_init urllist max_concurrent with
  | Raise e => RoundRaised e
  | Ok s0 =>
      if (sem_value s0 =? 0) && negb (all_finished s0) then RoundBlocked
      else gather (run_tasks outcomes urllist)
  end.

End Round.
Export Round.

(** ** The round driver *)

Module Driver.

(** The random source of [random.shuffle]: the numbers it will draw. *)
Definition rng : Type := nat -> nat.

(** [randbelow(n)]: the next number, below [n]. *)
Definition randbelow (g : rng) (n : nat) : nat * rng :=
  ((g 0 mod n)%nat, fun k => g (S k)).

(** [x[i], x[j] = x[j], x[i]] *)
Definition swap {A : Type} (x : list A) (i j : nat) : list A :=
  match x !! i, x !! j with
  | Some a, Some b => <[j:=a]> (<[i:=b]> x)
  | _, _ => x
  end.

(** [for i in reversed(range(1, len(x)))]: from index [i] down to 1. *)
Fixpoint shuffle_from {A : Type} (i : nat) (x : list A) (g : rng)
  : list A * rng :=
  match i with
  | O => (x, g)
  | S i' =>
      let (j, g') := randbelow g (i + 1) in
      shuffle_from i' (swap x i j) g'
  end.

(** [random.shuffle(x)] *)
Definition shuffle {A : Type} (x : list A) (g : rng) : list A * rng :=
  shuffle_from (length x - 1) x g.

(** The orders of the first [k] rounds: each is the shuffle of the one
    before, with the random source where that shuffle left it. *)
Fixpoint shuffled_orders {A : Type} (k : nat) (x : list A) (g : rng)
  : list (list A) :=
  match k with
  | O => []
  | S k' =>
      let (x', g') := shuffle x g in
      x' :: shuffled_orders k' x' g'
  end.

(** One round as observed: the order it was run in and how it ended. *)
Record round_obs : Type := RoundObs {
  round_order : list value;
  round_end : round_result
}.

(** Where the driver is when it is looked at. *)
Inductive status : Type :=
| Returned
| Raised (e : exn)
| Blocked
| Running.

(** The [while True] loop of [async_fetch], observed for [fuel] rounds.
    [env n i] is how the request of the [i]-th coroutine of round [n] ends.
    [random.shuffle] works in place: a round starts from the order the round
    before left. *)
Fixpoint async_fetch_loop (fuel : nat) (round_no : nat)
    (urllist : list value) (g : rng) (max_concurrent : Z) (loop : bool)
    (env : nat -> nat -> get_outcome) : list round_obs * status :=
  match fuel with
  | O => ([], Running)
  | S fuel' =>
      let (urllist', g') := shuffle urllist g in
      let r := fetch_all_rss (env round_no) urllist' max_concurrent in
      match r with
      | RoundDone _ =>
          if negb loop then ([RoundObs urllist' r], Returned)
          else
            let (rounds, st) :=
              async_fetch_loop fuel' (S round_no) urllist' g' max_concurrent
                loop env in
            (RoundObs urllist' r :: rounds, st)
      | RoundRaised e => ([RoundObs urllist' r], Raised e)
      | RoundBlocked => ([RoundObs urllist' r], Blocked)
      end
  end.

(** [async_fetch], from the parsed document on: the loader first, then the
    rounds. *)
Definition async_fetch (body : value) (max_concurrent : Z) (loop : bool)
    (env : nat -> nat -> get_outcome) (g : rng) (fuel : nat)
  : list log_record * (list round_obs * status) :=
  match fetch_opml body with
  | (log, Raise e) => (log, ([], Raised e))
  | (log, Ok urllist) =>
      (log, async_fetch_loop fuel 0 urllist g max_concurrent loop env)
  end.


(** Every request sent in the rounds observed. *)
Definition fetches_of (r : round_result) : list event :=
  match r with
  | RoundDone traces => concat (map requests traces)
  | _ => []
  end.

End Driver.
Export Driver.

(** ** Properties of the loader *)

Section LoaderFacts.

Lemma collect_items_children items urls urllist :
  Forall2 child_url items urls ->
  collect_items items urllist = Ok (urllist ++ urls).
Proof.
  intros H. revert urllist.
  induction H as [|item u items urls Hc _ IH]; intros urllist; simpl.
  - by rewrite app_nil_r.
  - destruct Hc as [c u Hu]. simpl. rewrite Hu. simpl.
    rewrite IH. by rewrite <- app_assoc.
Qed.

Lemma collect_groups_yield lines urls log :
  groups_yield lines urls log ->
  forall urllist log0,
    collect_groups lines urllist log0 = (log0 ++ log, Ok (urllist ++ urls)).
Proof.
  induction 1 as [|line rest urls log urls' log' Hg _ IH]; intros urllist log0.
  - simpl. by rewrite !app_nil_r.
  - destruct Hg as [g items urls Ho Hi | g c u Ho Hu | g v Ho Hl Hd]; simpl.
    + rewrite Ho. simpl. rewrite (collect_items_children _ _ _ Hi).
      rewrite IH. by rewrite <- app_assoc.
    + rewrite Ho. simpl. rewrite Hu. rewrite IH. by rewrite <- app_assoc.
    + rewrite Ho, Hl, Hd. rewrite IH. by rewrite <- !app_assoc.
Qed.

Lemma fetch_opml_groups body lines urls log :
  find_outline body = Ok (VList lines) ->
  groups_yield lines urls log ->
  fetch_opml body = (log, Ok urls).
Proof.
  intros Ho Hy. unfold fetch_opml, fetch_opml_try. rewrite Ho. simpl.
  by rewrite (collect_groups_yield _ _ _ Hy).
Qed.

(** A key missing on the way to the outline is reported as the format
    error. *)
Lemma fetch_opml_missing_key body key :
  find_outline body = Raise (KeyError key) ->
  fetch_opml body = ([], Raise format_error).
Proof.
  intros H. unfold fetch_opml, fetch_opml_try. by rewrite H.
Qed.

(** A group without an ["outline"] entry is reported as the format error,
    whatever came before it. *)
Lemma collect_groups_no_outline pre g post urls log :
  groups_yield pre urls log ->
  dict_get "outline" g = None ->
  collect_groups (pre ++ VDict g :: post) [] []
  = (log, Raise (KeyError "outline")).
Proof.
  intros Hy Hg.
  assert (forall urllist log0,
    collect_groups (pre ++ VDict g :: post) urllist log0
    = (log0 ++ log, Raise (KeyError "outline"))) as H.
  { induction Hy as [|line rest urls log urls' log' Hl _ IH];
      intros urllist log0.
    - simpl. rewrite Hg. by rewrite app_nil_r.
    - destruct Hl as [g' items urls Ho Hi | g' c u Ho Hu | g' v Ho Hl Hd];
        simpl.
      + rewrite Ho. simpl. rewrite (collect_items_children _ _ _ Hi).
        by rewrite IH.
      + rewrite Ho. simpl. rewrite Hu. by rewrite IH.
      + rewrite Ho, Hl, Hd. rewrite IH. by rewrite <- app_assoc. }
  apply H.
Qed.

Lemma groups_yield_app pre post urls1 log1 urls2 log2 :
  groups_yield pre urls1 log1 ->
  groups_yield post urls2 log2 ->
  groups_yield (pre ++ post) (urls1 ++ urls2) (log1 ++ log2).
Proof.
  induction 1 as [|line rest urls log urls' log' Hl _ IH]; intros Hpost.
  - done.
  - simpl. rewrite <- !app_assoc. constructor; [done | by apply IH].
Qed.

(** C5: for a document with a group of two children followed by a group of
    one child (a mapping, not a list), [fetch_opml] returns exactly the three
    URLs: the two of the first group in document order, then the one of the
    second group; nothing is logged. *)
Theorem fetch_opml_two_then_one body g1 g2 c1 c2 c3 u1 u2 u3 :
  find_outline body = Ok (VList [VDict g1; VDict g2]) ->
  dict_get "outline" g1 = Some (VList [VDict c1; VDict c2]) ->
  dict_get "@xmlUrl" c1 = Some u1 ->
  dict_get "@xmlUrl" c2 = Some u2 ->
  dict_get "outline" g2 = Some (VDict c3) ->
  dict_get "@xmlUrl" c3 = Some u3 ->
  fetch_opml body = ([], Ok [u1; u2; u3]).
Proof.
  intros Ho H1 Hc1 Hc2 H2 Hc3.
  unfold fetch_opml, fetch_opml_try. rewrite Ho. simpl.
  rewrite H1. simpl. rewrite Hc1. simpl. rewrite Hc2. simpl.
  rewrite H2. simpl. rewrite Hc3. reflexivity.
Qed.

Lemma fetch_opml_two_then_one_witness :
  fetch_opml
    (VDict [("opml", VDict [("@version", VStr "2.0");
       ("head", VDict [("title", VStr "feeds")]);
       ("body", VDict [("outline", VList [
          VDict [("@text", VStr "news");
                 ("outline", VList [
                    VDict [("@type", VStr "rss"); ("@xmlUrl", VStr "https://a.example/feed")];
                    VDict [("@type", VStr "rss"); ("@xmlUrl", VStr "https://b.example/feed")]])];
          VDict [("@text", VStr "blogs");
                 ("outline",
                    VDict [("@type", VStr "rss"); ("@xmlUrl", VStr "https://c.example/feed")])]])])])])
  = ([], Ok [VStr "https://a.example/feed"; VStr "https://b.example/feed";
             VStr "https://c.example/feed"]).
Proof.
  eapply fetch_opml_two_then_one; reflexivity.
Defined.

(** C10: when the top-level outline is one group, so that [parse] gives a
    mapping and not a list of groups, [fetch_opml] raises [TypeError]: the
    loop runs over the keys of the mapping, which are strings, and a string
    cannot be subscripted by ["outline"]. [except KeyError] does not catch
    it, so what is raised is not the format error. *)
Theorem fetch_opml_single_group_type_error body entries :
  find_outline body = Ok (VDict entries) ->
  entries <> [] ->
  fetch_opml body = ([], Raise TypeError) /\ TypeError <> format_error.
Proof.
  intros Ho Hne. split; [|discriminate].
  unfold fetch_opml, fetch_opml_try. rewrite Ho.
  destruct entries as [|[k v] rest]; [done|]. reflexivity.
Qed.

Lemma fetch_opml_single_group_type_error_witness :
  fetch_opml
    (opml_of_outline
       (VDict [("@text", VStr "news");
               ("outline", VDict [("@xmlUrl", VStr "https://a.example/feed")])]))
  = ([], Raise TypeError) /\ TypeError <> format_error.
Proof.
  eapply fetch_opml_single_group_type_error; [reflexivity | discriminate].
Defined.

(** C3, at the failing input: the document [<opml><body/></opml>] has no
    outline at all; [parse] gives [None] for the empty body, subscripting
    [None] raises [TypeError], and [fetch_opml] lets it through instead of
    raising the format error. *)
Theorem fetch_opml_empty_body_type_error :
  find_outline (VDict [("opml", VDict [("body", VNone)])]) = Raise TypeError
  /\ fetch_opml (VDict [("opml", VDict [("body", VNone)])])
     = ([], Raise TypeError)
  /\ TypeError <> format_error
  /\ (forall max_concurrent loop env g fuel,
        async_fetch (VDict [("opml", VDict [("body", VNone)])])
          max_concurrent loop env g fuel
        = ([], ([], Raised TypeError))).
Proof.
  split; [reflexivity|]. split; [reflexivity|]. split; [discriminate|].
  reflexivity.
Qed.

(** C4, as stated, fails: a group with no child at all matches neither
    shape, and the loader does not skip it; the missing ["outline"] key ends
    the call with the format error, and the URLs of the well-formed group
    before it are lost. *)
Lemma fetch_opml_empty_group_fails :
  group_shape (VDict [("@text", VStr "empty")]) = Neither
  /\ fetch_opml
       (opml_of_outline
          (VList [
             VDict [("@text", VStr "news");
                    ("outline", VList [
                       VDict [("@xmlUrl", VStr "https://a.example/feed")];
                       VDict [("@xmlUrl", VStr "https://b.example/feed")]])];
             VDict [("@text", VStr "empty")]]))
     = ([], Raise format_error).
Proof.
  split; reflexivity.
Qed.

(** C4, amended: among several top-level groups (the outline is a list), a
    group whose ["outline"] entry is there and is neither a list nor a
    mapping is skipped, and one error record is logged for it; when the
    groups before and after it are well-formed or skipped alike, the call
    returns the URLs of the well-formed groups in document order. A group
    that is a mapping with no ["outline"] entry at all is not skipped: after
    groups that are well-formed or skipped, it ends the call with the format
    error. *)
Theorem fetch_opml_skips_anomalous_group body pre g post urls1 log1 :
  find_outline body = Ok (VList (pre ++ VDict g :: post)) ->
  groups_yield pre urls1 log1 ->
  (forall v urls2 log2,
     dict_get "outline" g = Some v ->
     is_list v = false ->
     is_dict v = false ->
     groups_yield post urls2 log2 ->
     group_shape (VDict g) = Neither
     /\ fetch_opml body
        = (log1 ++ LogRecord ERROR false (MsgOpmlFormat (VDict g)) :: log2,
           Ok (urls1 ++ urls2)))
  /\ (dict_get "outline" g = None ->
      group_shape (VDict g) = Neither
      /\ fetch_opml body = (log1, Raise format_error)).
Proof.
  intros Ho Hpre. split.
  - intros v urls2 log2 Hg Hl Hd Hpost. split.
    + unfold group_shape. simpl. rewrite Hg. by destruct v.
    + apply (fetch_opml_groups _ _ _ _ Ho).
      apply groups_yield_app; [done|].
      change (groups_yield (VDict g :: post) ([] ++ urls2)
        ([LogRecord ERROR false (MsgOpmlFormat (VDict g))] ++ log2)).
      constructor; [|done]. by apply (yield_anomalous g v).
  - intros Hg. split.
    + unfold group_shape. simpl. by rewrite Hg.
    + unfold fetch_opml, fetch_opml_try. rewrite Ho. simpl.
      by rewrite (collect_groups_no_outline pre g post urls1 log1 Hpre Hg).
Qed.

Lemma fetch_opml_skips_anomalous_group_witness :
  let odd := [("@text", VStr "odd"); ("outline", VStr "text")] in
  let news :=
    VDict [("outline", VList [
              VDict [("@xmlUrl", VStr "https://a.example/feed")];
              VDict [("@xmlUrl", VStr "https://b.example/feed")]])] in
  let blogs :=
    VDict [("outline", VDict [("@xmlUrl", VStr "https://c.example/feed")])] in
  group_shape (VDict odd) = Neither
  /\ fetch_opml (opml_of_outline (VList [news; VDict odd; blogs]))
     = ([LogRecord ERROR false (MsgOpmlFormat (VDict odd))],
        Ok [VStr "https://a.example/feed"; VStr "https://b.example/feed";
            VStr "https://c.example/feed"]).
Proof.
  intros odd news blogs.
  refine (proj1 (fetch_opml_skips_anomalous_group
                   (opml_of_outline (VList [news; VDict odd; blogs]))
                   [news] odd [blogs]
                   [VStr "https://a.example/feed";
                    VStr "https://b.example/feed"] []
                   eq_refl _)
            (VStr "text") [VStr "https://c.example/feed"] []
            eq_refl eq_refl eq_refl _).
  - refine (yield_cons news []
              [VStr "https://a.example/feed"; VStr "https://b.example/feed"]
              [] [] [] _ yield_nil).
    eapply yield_multi; [reflexivity|].
    repeat constructor.
  - refine (yield_cons blogs [] [VStr "https://c.example/feed"] [] [] [] _
              yield_nil).
    eapply yield_single; reflexivity.
Defined.

End LoaderFacts.

(** ** Properties of the fetcher *)

Section FetcherFacts.

Lemma subscript_raises_Exception v key e :
  subscript v key = Raise e -> is_Exception e = true.
Proof.
  destruct v; simpl; try (intros [= <-]; reflexivity).
  destruct (dict_get key entries); intros [= <-]; reflexivity.
Qed.

(** Whatever the [try] block raises is an [Exception], unless the
    environment raised something else into it. *)
Lemma fetch_rss_try_raises_Exception url wait_time o e :
  ordinary o = true ->
  fetch_rss_try url wait_time o = Raise e ->
  is_Exception e = true.
Proof.
  unfold ordinary, injected, fetch_rss_try.
  destruct o as [e0|resp]; simpl.
  - intros Ho [= <-]. exact Ho.
  - intros Ho.
    destruct ((status_code resp =? 502) || (status_code resp =? 530));
      [discriminate|].
    destruct ((status_code resp =? 403) || (status_code resp =? 401));
      [discriminate|].
    unfold raise_for_status.
    destruct (is_success (status_code resp)); simpl; [|intros [= <-]; done].
    destruct (json resp) as [data|e1].
    + destruct (subscript data "title") as [title|e2] eqn:Ht; simpl.
      * destruct (subscript data "home_page_url") as [home|e3] eqn:Hh; simpl;
          [discriminate|].
        intros [= <-]. by eapply subscript_raises_Exception.
      * intros [= <-]. by eapply subscript_raises_Exception.
    + destruct (is_JSONDecodeError e1); [discriminate|].
      intros [= <-]. exact Ho.
Qed.

Lemma fetch_rss_returns url wait_time o :
  ordinary o = true -> snd (fetch_rss url wait_time o) = Ok tt.
Proof.
  intros Ho. unfold fetch_rss, fetch_rss_guarded.
  destruct (fetch_rss_try url wait_time o) as [[r secs]|e] eqn:Ht; [done|].
  by rewrite (fetch_rss_try_raises_Exception _ _ _ _ Ho Ht).
Qed.

(** A coroutine sends one request, for its own URL, however it ends. *)
Lemma fetch_rss_requests url wait_time o :
  requests (fst (fetch_rss url wait_time o)) = [EvGet url].
Proof.
  unfold fetch_rss.
  by destruct (fetch_rss_guarded url wait_time o) as [[r secs]|e].
Qed.

Lemma success_not_cooldown status :
  is_success status = true -> cooldown_status status = false.
Proof.
  unfold is_success, cooldown_status. intros H.
  apply andb_true_iff in H as [H1 H2].
  apply Z.leb_le in H1. apply Z.leb_le in H2.
  repeat (apply orb_false_iff; split); apply Z.eqb_neq; lia.
Qed.

Lemma not_cooldown_tests status :
  cooldown_status status = false ->
  (status =? 502) || (status =? 530) = false
  /\ (status =? 403) || (status =? 401) = false.
Proof.
  unfold cooldown_status. intros H.
  repeat (apply orb_false_iff in H as [H ?]).
  split; apply orb_false_iff; done.
Qed.

End FetcherFacts.

(** ** Properties of a round *)

Section RoundFacts.

Lemma count_middle (f : task -> bool) pre t post :
  length (filter f (pre ++ t :: post))
  = (length (filter f pre) + (if f t then 1 else 0)
     + length (filter f post))%nat.
Proof.
  rewrite filter_app, length_app, filter_cons.
  case_decide as Hd; destruct (f t); simpl in *; done || lia.
Qed.

Lemma count_spawn (f : task -> bool) urllist :
  f (Task VNone Waiting []) = false ->
  (forall url, f (spawn url) = f (Task VNone Waiting [])) ->
  length (filter f (map spawn urllist)) = 0%nat.
Proof.
  intros Hf Hall. induction urllist as [|url rest IH]; [done|].
  simpl. rewrite filter_cons. case_decide as Hd; [|exact IH].
  rewrite Hall, Hf in Hd. done.
Qed.

Lemma slots_accounted_init urllist max_concurrent s0 :
  round_init urllist max_concurrent = Ok s0 ->
  slots_accounted max_concurrent s0.
Proof.
  unfold round_init. destruct (max_concurrent <? 0) eqn:Hneg; [done|].
  intros [= <-]. apply Z.ltb_ge in Hneg.
  unfold slots_accounted, slots_held. simpl.
  rewrite (count_spawn holds_slot); [lia | done | done].
Qed.

Lemma slots_accounted_step max_concurrent s s' :
  step s s' ->
  slots_accounted max_concurrent s ->
  slots_accounted max_concurrent s'.
Proof.
  unfold slots_accounted, slots_held.
  destruct 1; simpl; rewrite !count_middle; simpl; lia.
Qed.

Lemma slots_accounted_reachable max_concurrent s s' :
  rtc step s s' ->
  slots_accounted max_concurrent s ->
  slots_accounted max_concurrent s'.
Proof.
  induction 1 as [|s1 s2 s3 Hstep _ IH]; [done|].
  intros Hs. apply IH. by eapply slots_accounted_step.
Qed.

Lemma in_flight_le_held s : in_flight s <= slots_held s.
Proof.
  unfold in_flight, slots_held. apply inj_le.
  induction (tasks s) as [|t ts IH]; [done|].
  rewrite !filter_cons.
  destruct t as [url [| |secs|r] tr]; repeat case_decide; simpl in *;
    try done; lia.
Qed.

(** A step that sends a request found the counter positive and took one
    slot. *)
Lemma step_issue_takes_slot s s' :
  step s s' ->
  in_flight s < in_flight s' ->
  0 < sem_value s /\ sem_value s' = sem_value s - 1.
Proof.
  unfold in_flight.
  destruct 1; simpl; rewrite !count_middle; simpl; lia.
Qed.

(** C1: in every state a round can reach, the requests in flight are no more
    than the cap the semaphore was created with (any cap the semaphore
    accepts, below the number of URLs or not): the counter equals the cap
    less the coroutines inside [async with semaphore]; and a step that sends
    a request happens only while the counter is positive, and takes one
    slot, so with no slot free a coroutine stays blocked. *)
Theorem in_flight_bounded urllist max_concurrent s0 s :
  round_init urllist max_concurrent = Ok s0 ->
  rtc step s0 s ->
  in_flight s <= max_concurrent
  /\ sem_value s = max_concurrent - slots_held s
  /\ (forall s', step s s' -> in_flight s < in_flight s' ->
        0 < sem_value s /\ sem_value s' = sem_value s - 1)
  /\ (sem_value s = 0 ->
        forall s', step s s' -> in_flight s' <= in_flight s).
Proof.
  intros Hinit Hreach.
  pose proof (slots_accounted_reachable max_concurrent _ _ Hreach
                (slots_accounted_init _ _ _ Hinit)) as [Hsum Hpos].
  pose proof (in_flight_le_held s) as Hle.
  split; [lia|]. split; [lia|]. split.
  - intros s' Hstep Hlt. by apply step_issue_takes_slot.
  - intros Hzero s' Hstep.
    destruct (Z_lt_le_dec (in_flight s) (in_flight s')) as [Hlt|Hge]; [|lia].
    destruct (step_issue_takes_slot _ _ Hstep Hlt). lia.
Qed.

Lemma in_flight_bounded_witness :
  let u1 := VStr "https://a.example/feed" in
  let u2 := VStr "https://b.example/feed" in
  let u3 := VStr "https://c.example/feed" in
  let s :=
    RoundState 0
      [Task u1 InFlight [EvAcquire; EvGet u1];
       Task u2 InFlight [EvAcquire; EvGet u2];
       Task u3 Waiting []] in
  in_flight s <= 2
  /\ sem_value s = 2 - slots_held s
  /\ (forall s', step s s' -> in_flight s < in_flight s' ->
        0 < sem_value s /\ sem_value s' = sem_value s - 1)
  /\ (sem_value s = 0 ->
        forall s', step s s' -> in_flight s' <= in_flight s).
Proof.
  intros u1 u2 u3 s.
  apply (in_flight_bounded [u1; u2; u3] 2
           (RoundState 2 [spawn u1; spawn u2; spawn u3]) s).
  - reflexivity.
  - eapply rtc_l.
    { apply (step_acquire 2 [] u1 [] [spawn u2; spawn u3]). lia. }
    eapply rtc_l.
    { apply (step_acquire 1 [Task u1 InFlight [EvAcquire; EvGet u1]]
               u2 [] [spawn u3]). lia. }
    apply rtc_refl.
Defined.

(** *** A round runs to its end *)

Lemma round_consistent_init urllist max_concurrent s0 :
  round_init urllist max_concurrent = Ok s0 ->
  round_consistent urllist s0.
Proof.
  unfold round_init. destruct (max_concurrent <? 0); [done|].
  intros [= <-]. split; simpl.
  - apply Forall_forall. intros t Ht.
    apply list_elem_of_fmap in Ht as (url & -> & _). reflexivity.
  - induction urllist as [|url rest IH]; [done|]. simpl. by rewrite IH.
Qed.

Lemma round_consistent_step urllist s s' :
  step s s' ->
  round_consistent urllist s ->
  round_consistent urllist s'.
Proof.
  unfold round_consistent.
  destruct 1 as [v pre url tr post Hv | v pre url tr post o r secs Hg
                | v pre url tr post o e Hg | v pre url tr post secs];
    simpl; rewrite !Forall_app, !Forall_cons, !map_app; simpl;
    intros [(Hpre & Ht & Hpost) Hurls]; (split; [|exact Hurls]);
    (split; [exact Hpre|]); (split; [|exact Hpost]);
    unfold task_consistent in *; simpl in *.
  - by rewrite Ht.
  - exists o, r. by rewrite Ht.
  - exists o. unfold fetch_rss. by rewrite Hg, Ht.
  - destruct Ht as (o & r & Hg & ->). exists o. unfold fetch_rss.
    by rewrite Hg.
Qed.

Lemma round_consistent_reachable urllist s s' :
  rtc step s s' ->
  round_consistent urllist s ->
  round_consistent urllist s'.
Proof.
  induction 1 as [|s1 s2 s3 Hstep _ IH]; [done|].
  intros Hs. apply IH. by eapply round_consistent_step.
Qed.

Lemma find_task (f : task -> bool) ts :
  existsb f ts = true ->
  exists pre t post, ts = pre ++ t :: post /\ f t = true.
Proof.
  induction ts as [|t ts IH]; [done|]. simpl.
  destruct (f t) eqn:Hf; simpl.
  - intros _. by exists [], t, ts.
  - intros H. destruct (IH H) as (pre & t' & post & -> & Hf').
    by exists (t :: pre), t', post.
Qed.

Lemma none_counted (f : task -> bool) ts :
  existsb f ts = false -> length (filter f ts) = 0%nat.
Proof.
  induction ts as [|t ts IH]; [done|]. simpl.
  intros H. apply orb_false_iff in H as [Hf Hts].
  rewrite filter_cons. case_decide as Hd; [by rewrite Hf in Hd|].
  by apply IH.
Qed.

Lemma not_all_finished ts :
  forallb is_finished ts = false ->
  existsb (fun t => negb (is_finished t)) ts = true.
Proof.
  induction ts as [|t ts IH]; [done|]. simpl.
  destruct (is_finished t); simpl; [exact IH | done].
Qed.

(** While a slot exists, a round that is not over can take a step. *)
Lemma round_progress max_concurrent s :
  0 < max_concurrent ->
  slots_accounted max_concurrent s ->
  all_finished s = false ->
  exists s', step s s'.
Proof.
  intros Hcap [Hsum Hpos] Hnot. destruct s as [v ts]. simpl in *.
  destruct (existsb holds_slot ts) eqn:Hheld.
  - apply find_task in Hheld as (pre & [url ph tr] & post & -> & Hf).
    destruct ph as [| |secs|r]; try discriminate.
    + eexists.
      apply (step_respond v pre url tr post (GetRaises ConnectError)).
      reflexivity.
    + eexists. apply step_wake.
  - unfold slots_held in Hsum. simpl in Hsum.
    rewrite (none_counted _ _ Hheld) in Hsum.
    unfold all_finished in Hnot. simpl in Hnot.
    apply not_all_finished, find_task in Hnot
      as (pre & [url ph tr] & post & -> & Hf).
    rewrite existsb_app in Hheld. simpl in Hheld.
    apply orb_false_iff in Hheld as [_ Hheld].
    apply orb_false_iff in Hheld as [Hheld _].
    destruct ph as [| |secs|r]; try discriminate.
    eexists. apply step_acquire. lia.
Qed.

(** Every step uses up one of the awaits left. *)
Lemma step_remaining s s' : step s s' -> (remaining s' < remaining s)%nat.
Proof.
  unfold remaining.
  destruct 1; simpl; rewrite !map_app, !list_sum_app; simpl; lia.
Qed.

Lemma nsteps_remaining n s s' :
  nsteps step n s s' -> (n + remaining s' <= remaining s)%nat.
Proof.
  induction 1 as [|n s1 s2 s3 Hstep _ IH]; [lia|].
  apply step_remaining in Hstep. lia.
Qed.

Lemma remaining_init urllist max_concurrent s0 :
  round_init urllist max_concurrent = Ok s0 ->
  remaining s0 = (3 * length urllist)%nat.
Proof.
  unfold round_init. destruct (max_concurrent <? 0); [done|].
  intros [= <-]. unfold remaining. simpl.
  induction urllist as [|url rest IH]; [done|]. simpl in *. lia.
Qed.

(** From any state a round has reached, it can be run to its end. *)
Lemma round_can_finish max_concurrent s :
  0 < max_concurrent ->
  slots_accounted max_concurrent s ->
  exists s', rtc step s s' /\ all_finished s' = true.
Proof.
  intros Hcap.
  remember (remaining s) as n eqn:Hn.
  revert s Hn. induction (lt_wf n) as [n _ IH]. intros s -> Hacc.
  destruct (all_finished s) eqn:Hfin.
  - exists s. split; [apply rtc_refl | done].
  - destruct (round_progress _ _ Hcap Hacc Hfin) as [s1 Hstep].
    destruct (IH (remaining s1) (step_remaining _ _ Hstep) s1 eq_refl)
      as (s' & Hreach & Hdone).
    { by eapply slots_accounted_step. }
    exists s'. split; [by eapply rtc_l | done].
Qed.

(** A step needs a free slot or a coroutine that holds one. *)
Lemma step_needs_slot s s' :
  step s s' -> 0 < sem_value s \/ 0 < slots_held s.
Proof.
  unfold slots_held.
  destruct 1; simpl; rewrite ?count_middle; simpl; lia.
Qed.

(** With no slot, the coroutines of a fresh round cannot move. *)
Lemma round_blocked urllist s0 s' :
  round_init urllist 0 = Ok s0 -> step s0 s' -> False.
Proof.
  intros Hinit Hstep.
  pose proof (slots_accounted_init urllist 0 _ Hinit) as [Hsum Hpos].
  apply step_needs_slot in Hstep. unfold slots_held in *. lia.
Qed.

(** The coroutines of a finished round ran as [run_tasks] says, for the
    outcomes their requests had. *)
Lemma finished_tasks_run ts :
  Forall task_consistent ts ->
  forallb is_finished ts = true ->
  exists outcomes, map task_run ts = run_tasks outcomes (map task_url ts).
Proof.
  induction 1 as [|t ts Ht _ IH]; simpl.
  - intros _. by exists (fun _ => GetRaises ConnectError).
  - intros H. apply andb_true_iff in H as [Hfin Hrest].
    destruct (IH Hrest) as [outcomes Hruns].
    destruct t as [url ph tr]. destruct ph as [| |secs|res]; try discriminate.
    destruct Ht as [o Ho]. simpl in Ho.
    exists (fun i => match i with O => o | S j => outcomes j end).
    simpl. unfold task_run at 1. simpl. by rewrite Ho, Hruns.
Qed.

Lemma round_adequate urllist max_concurrent s0 s :
  round_init urllist max_concurrent = Ok s0 ->
  rtc step s0 s ->
  all_finished s = true ->
  exists outcomes, map task_run (tasks s) = run_tasks outcomes urllist.
Proof.
  intros Hinit Hreach Hfin.
  destruct (round_consistent_reachable urllist _ _ Hreach
              (round_consistent_init _ _ _ Hinit)) as [Hcons Hurls].
  destruct (finished_tasks_run _ Hcons Hfin) as [outcomes H].
  exists outcomes. by rewrite <- Hurls.
Qed.

(** *** The round as the driver sees it *)

Lemma gather_ordinary outcomes urllist :
  (forall i, ordinary (outcomes i) = true) ->
  gather (run_tasks outcomes urllist)
  = RoundDone (map fst (run_tasks outcomes urllist)).
Proof.
  revert outcomes. induction urllist as [|url rest IH]; intros outcomes Ho.
  - reflexivity.
  - simpl.
    pose proof (fetch_rss_returns url default_wait_time _ (Ho 0%nat)) as Hr.
    destruct (fetch_rss url default_wait_time (outcomes 0%nat)) as [tr res].
    simpl in Hr. subst res. simpl.
    by rewrite (IH (fun i => outcomes (S i)) (fun i => Ho (S i))).
Qed.

Lemma fetch_all_rss_done outcomes urllist max_concurrent :
  0 < max_concurrent ->
  (forall i, ordinary (outcomes i) = true) ->
  fetch_all_rss outcomes urllist max_concurrent
  = RoundDone (map fst (run_tasks outcomes urllist)).
Proof.
  intros Hcap Ho. unfold fetch_all_rss, round_init.
  destruct (max_concurrent <? 0) eqn:Hneg; [apply Z.ltb_lt in Hneg; lia|].
  simpl. destruct (max_concurrent =? 0) eqn:Hz; [apply Z.eqb_eq in Hz; lia|].
  simpl. by apply gather_ordinary.
Qed.

Lemma fetch_all_rss_empty outcomes max_concurrent :
  0 <= max_concurrent ->
  fetch_all_rss outcomes [] max_concurrent = RoundDone [].
Proof.
  intros Hcap. unfold fetch_all_rss, round_init.
  destruct (max_concurrent <? 0) eqn:Hneg; [apply Z.ltb_lt in Hneg; lia|].
  simpl. by rewrite andb_false_r.
Qed.

Lemma run_tasks_requests outcomes urllist :
  map (fun run => requests (fst run)) (run_tasks outcomes urllist)
  = map (fun url => [EvGet url]) urllist.
Proof.
  revert outcomes. induction urllist as [|url rest IH]; intros outcomes.
  - reflexivity.
  - simpl. by rewrite fetch_rss_requests, IH.
Qed.

Lemma run_tasks_length outcomes urllist :
  length (run_tasks outcomes urllist) = length urllist.
Proof.
  revert outcomes. induction urllist as [|url rest IH]; intros outcomes.
  - reflexivity.
  - simpl. by rewrite IH.
Qed.

End RoundFacts.

(** ** The outcomes of one fetch *)

Section FetcherClaims.

Lemma fetch_rss_try_get_raises url wait_time e :
  fetch_rss_try url wait_time (GetRaises e) = Raise e.
Proof. reflexivity. Qed.

Lemma fetch_rss_try_bad_status url wait_time resp :
  cooldown_status (status_code resp) = false ->
  is_success (status_code resp) = false ->
  fetch_rss_try url wait_time (GetReturns resp)
  = Raise (HTTPStatusError (status_code resp)).
Proof.
  intros Hc Hs. apply not_cooldown_tests in Hc as [H1 H2].
  unfold fetch_rss_try, raise_for_status. simpl. by rewrite H1, H2, Hs.
Qed.

Lemma fetch_rss_try_success url wait_time resp :
  is_success (status_code resp) = true ->
  fetch_rss_try url wait_time (GetReturns resp)
  = match json resp with
    | Raise e =>
        if is_JSONDecodeError e then
          Ok (LogRecord WARNING false (MsgJsonDecode url (text resp)),
              wait_time * 3)
        else Raise e
    | Ok data =>
        title <- subscript data "title" ;;
        homepage <- subscript data "home_page_url" ;;
        Ok (LogRecord INFO false (MsgFeed title homepage url), wait_time)
    end.
Proof.
  intros Hs.
  destruct (not_cooldown_tests _ (success_not_cooldown _ Hs)) as [H1 H2].
  unfold fetch_rss_try, raise_for_status. simpl. by rewrite H1, H2, Hs.
Qed.

(** C6: a response with status 502, 530, 401 or 403 makes [fetch_rss] write
    one debug record and sleep twice the base wait (6 seconds with the
    default base wait of 3), and return without an exception; and whatever
    the outcome, a coroutine sends exactly one request for its URL, and a
    round has one coroutine per entry of the list, so nothing is retried
    within the round. *)
Theorem fetch_rss_cooldown url wait_time resp :
  cooldown_status (status_code resp) = true ->
  (exists msg,
     fetch_rss url wait_time (GetReturns resp)
     = ([EvAcquire; EvGet url; EvLog (LogRecord DEBUG false msg);
         EvSleep (wait_time * 2); EvRelease], Ok tt))
  /\ (exists msg,
        fetch_rss url default_wait_time (GetReturns resp)
        = ([EvAcquire; EvGet url; EvLog (LogRecord DEBUG false msg);
            EvSleep 6; EvRelease], Ok tt))
  /\ (forall o, requests (fst (fetch_rss url wait_time o)) = [EvGet url])
  /\ (forall outcomes urllist,
        map (fun run => requests (fst run)) (run_tasks outcomes urllist)
        = map (fun u => [EvGet u]) urllist).
Proof.
  intros Hc.
  assert (forall w, exists msg,
    fetch_rss url w (GetReturns resp)
    = ([EvAcquire; EvGet url; EvLog (LogRecord DEBUG false msg);
        EvSleep (w * 2); EvRelease], Ok tt)) as Hsleep.
  { intros w. unfold fetch_rss, fetch_rss_guarded, fetch_rss_try. simpl.
    unfold cooldown_status in Hc.
    destruct (status_code resp =? 502), (status_code resp =? 530),
      (status_code resp =? 403), (status_code resp =? 401);
      simpl in *; try discriminate Hc; by eexists. }
  split; [apply Hsleep|]. split; [apply (Hsleep default_wait_time)|].
  split; [intros o; apply fetch_rss_requests|].
  intros outcomes urllist. apply run_tasks_requests.
Qed.

Lemma fetch_rss_cooldown_witness :
  let url := VStr "https://a.example/feed" in
  let resp := Response 502 (Raise JSONDecodeError) "Bad Gateway" in
  (exists msg,
     fetch_rss url 3 (GetReturns resp)
     = ([EvAcquire; EvGet url; EvLog (LogRecord DEBUG false msg);
         EvSleep (3 * 2); EvRelease], Ok tt))
  /\ (exists msg,
        fetch_rss url default_wait_time (GetReturns resp)
        = ([EvAcquire; EvGet url; EvLog (LogRecord DEBUG false msg);
            EvSleep 6; EvRelease], Ok tt))
  /\ (forall o, requests (fst (fetch_rss url 3 o)) = [EvGet url])
  /\ (forall outcomes urllist,
        map (fun run => requests (fst run)) (run_tasks outcomes urllist)
        = map (fun u => [EvGet u]) urllist).
Proof.
  intros url resp. apply (fetch_rss_cooldown url 3 resp). reflexivity.
Defined.

(** C7, as stated, fails: a 2xx response whose body is valid JSON but has no
    [title] entry (the JSON object with no member) is not logged as a
    success followed by one base wait; the [KeyError] goes to the handler,
    which writes an error record and sleeps three base waits. *)
Lemma fetch_rss_valid_json_without_title :
  let url := VStr "https://a.example/feed" in
  let resp := Response 200 (Ok (VDict [])) "{}" in
  is_success (status_code resp) = true
  /\ json resp = Ok (VDict [])
  /\ fetch_rss url default_wait_time (GetReturns resp)
     = ([EvAcquire; EvGet url;
         EvLog (LogRecord ERROR true (MsgFailed url (KeyError "title")));
         EvSleep 9; EvRelease], Ok tt).
Proof.
  intros url resp. repeat split.
Qed.

(** C7, amended: for a response with a 2xx status, a body for which
    [resp.json()] raises [JSONDecodeError] gives a warning record and a
    sleep of three base waits; a body that is valid JSON and has the [title]
    and [home_page_url] entries gives an info record with both fields and a
    sleep of one base wait; a body that is valid JSON without one of them,
    and a body for which [resp.json()] raises another exception (bytes that
    are not text), give an error record with the traceback and a sleep of
    three base waits. No case raises. *)
Theorem fetch_rss_success_status url wait_time resp :
  is_success (status_code resp) = true ->
  (json resp = Raise JSONDecodeError ->
     fetch_rss url wait_time (GetReturns resp)
     = ([EvAcquire; EvGet url;
         EvLog (LogRecord WARNING false (MsgJsonDecode url (text resp)));
         EvSleep (wait_time * 3); EvRelease], Ok tt))
  /\ (forall data title homepage,
        json resp = Ok data ->
        subscript data "title" = Ok title ->
        subscript data "home_page_url" = Ok homepage ->
        fetch_rss url wait_time (GetReturns resp)
        = ([EvAcquire; EvGet url;
            EvLog (LogRecord INFO false (MsgFeed title homepage url));
            EvSleep wait_time; EvRelease], Ok tt))
  /\ (forall data e,
        json resp = Ok data ->
        (title <- subscript data "title" ;; subscript data "home_page_url")
        = Raise e ->
        fetch_rss url wait_time (GetReturns resp)
        = ([EvAcquire; EvGet url;
            EvLog (LogRecord ERROR true (MsgFailed url e));
            EvSleep (wait_time * 3); EvRelease], Ok tt))
  /\ (forall e,
        json resp = Raise e ->
        is_JSONDecodeError e = false ->
        is_Exception e = true ->
        fetch_rss url wait_time (GetReturns resp)
        = ([EvAcquire; EvGet url;
            EvLog (LogRecord ERROR true (MsgFailed url e));
            EvSleep (wait_time * 3); EvRelease], Ok tt)).
Proof.
  intros Hs. pose proof (fetch_rss_try_success url wait_time resp Hs) as Ht.
  unfold fetch_rss, fetch_rss_guarded. rewrite Ht. clear Ht.
  split; [|split; [|split]].
  - intros ->. reflexivity.
  - intros data title homepage -> Ht Hh. simpl. rewrite Ht. simpl.
    by rewrite Hh.
  - intros data e -> He.
    destruct (subscript data "title") as [title|e1] eqn:Ht; simpl in *.
    + rewrite He. simpl.
      by rewrite (subscript_raises_Exception _ _ _ He).
    + injection He as <-.
      by rewrite (subscript_raises_Exception _ _ _ Ht).
  - intros e -> Hj He. by rewrite Hj, He.
Qed.

Lemma fetch_rss_success_status_witness :
  let url := VStr "https://a.example/feed" in
  let resp :=
    Response 200
      (Ok (VDict [("title", VStr "A"); ("home_page_url", VStr "https://a.example")]))
      "{}" in
  fetch_rss url 3 (GetReturns resp)
  = ([EvAcquire; EvGet url;
      EvLog (LogRecord INFO false
               (MsgFeed (VStr "A") (VStr "https://a.example") url));
      EvSleep 3; EvRelease], Ok tt).
Proof.
  intros url resp.
  apply (proj1 (proj2 (fetch_rss_success_status url 3 resp eq_refl))
           (VDict [("title", VStr "A"); ("home_page_url", VStr "https://a.example")]));
    reflexivity.
Defined.

(** C2, as stated, fails: the exception raised by decoding a body that is
    not JSON is caught by the inner handler, which writes a warning record
    without the traceback ([exc_info] is not set). *)
Lemma fetch_rss_decode_error_no_traceback :
  let url := VStr "https://a.example/feed" in
  let resp := Response 200 (Raise JSONDecodeError) "<html>" in
  injected (GetReturns resp) = Some JSONDecodeError
  /\ is_Exception JSONDecodeError = true
  /\ fetch_rss url default_wait_time (GetReturns resp)
     = ([EvAcquire; EvGet url;
         EvLog (LogRecord WARNING false (MsgJsonDecode url "<html>"));
         EvSleep 9; EvRelease], Ok tt).
Proof.
  intros url resp. repeat split.
Qed.

(** C2, amended: whatever the request or the response raises (cancellation
    apart), [fetch_rss] returns without an exception. Every exception that
    leaves the [try] block (network and timeout errors of the request, the
    status error of [raise_for_status], a decoding error other than
    [JSONDecodeError], a missing field) is logged as an error with the
    traceback and followed by a sleep of three base waits; the
    [JSONDecodeError] of a 2xx body is logged as a warning without the
    traceback, with the same sleep. So in a round with a slot, every
    coroutine runs to its end and the round completes with one trace per
    entry, each depending on its own outcome only. *)
Theorem fetch_rss_never_propagates url wait_time o :
  ordinary o = true ->
  snd (fetch_rss url wait_time o) = Ok tt
  /\ (forall e,
        fetch_rss_try url wait_time o = Raise e ->
        fetch_rss url wait_time o
        = ([EvAcquire; EvGet url;
            EvLog (LogRecord ERROR true (MsgFailed url e));
            EvSleep (wait_time * 3); EvRelease], Ok tt))
  /\ (forall resp,
        o = GetReturns resp ->
        is_success (status_code resp) = true ->
        json resp = Raise JSONDecodeError ->
        fetch_rss url wait_time o
        = ([EvAcquire; EvGet url;
            EvLog (LogRecord WARNING false (MsgJsonDecode url (text resp)));
            EvSleep (wait_time * 3); EvRelease], Ok tt))
  /\ (forall outcomes urllist max_concurrent,
        0 < max_concurrent ->
        (forall i, ordinary (outcomes i) = true) ->
        fetch_all_rss outcomes urllist max_concurrent
        = RoundDone (map fst (run_tasks outcomes urllist))).
Proof.
  intros Ho. split; [by apply fetch_rss_returns|]. split; [|split].
  - intros e He. unfold fetch_rss, fetch_rss_guarded. rewrite He.
    by rewrite (fetch_rss_try_raises_Exception _ _ _ _ Ho He).
  - intros resp -> Hs Hj. unfold fetch_rss, fetch_rss_guarded.
    rewrite (fetch_rss_try_success _ _ _ Hs), Hj. reflexivity.
  - intros outcomes urllist max_concurrent. apply fetch_all_rss_done.
Qed.

Lemma fetch_rss_never_propagates_witness :
  let url := VStr "https://a.example/feed" in
  snd (fetch_rss url 3 (GetRaises TimeoutException)) = Ok tt
  /\ fetch_rss url 3 (GetRaises TimeoutException)
     = ([EvAcquire; EvGet url;
         EvLog (LogRecord ERROR true (MsgFailed url TimeoutException));
         EvSleep (3 * 3); EvRelease], Ok tt).
Proof.
  intros url.
  pose (H := fetch_rss_never_propagates url 3 (GetRaises TimeoutException)
               eq_refl).
  split; [exact (proj1 H)|].
  exact (proj1 (proj2 H) TimeoutException eq_refl).
Defined.

End FetcherClaims.

(** ** Properties of the driver *)

Section DriverFacts.

Context {A : Type}.

Lemma insert_takes_out (l : list A) i x y :
  l !! i = Some x -> x :: <[i:=y]> l ≡ₚ y :: l.
Proof.
  revert i. induction l as [|z l IH]; intros [|i] H; simpl in *; try done.
  - injection H as ->. apply Permutation_swap.
  - rewrite (Permutation_swap z x). rewrite (IH i H).
    apply Permutation_swap.
Qed.

Lemma swap_permutation (x : list A) i j : swap x i j ≡ₚ x.
Proof.
  unfold swap.
  destruct (x !! i) as [a|] eqn:Hi; [|done].
  destruct (x !! j) as [b|] eqn:Hj; [|done].
  destruct (decide (i = j)) as [->|Hne].
  - rewrite Hi in Hj. injection Hj as ->.
    rewrite list_insert_insert_eq. by rewrite list_insert_id.
  - apply (Permutation_cons_inv (a:=b)).
    rewrite (insert_takes_out (<[i:=b]> x) j b a).
    + by apply insert_takes_out.
    + by rewrite list_lookup_insert_ne.
Qed.

Lemma shuffle_from_permutation i (x : list A) g :
  fst (shuffle_from i x g) ≡ₚ x.
Proof.
  revert x g. induction i as [|i IH]; intros x g; [done|].
  simpl. rewrite IH. apply swap_permutation.
Qed.

(** [random.shuffle] rearranges the list: nothing is added or lost. *)
Lemma shuffle_permutation (x : list A) g : fst (shuffle x g) ≡ₚ x.
Proof. apply shuffle_from_permutation. Qed.

End DriverFacts.

Section DriverRounds.

Variable max_concurrent : Z.
Variable env : nat -> nat -> get_outcome.



Lemma concat_singletons {B C : Type} (f : B -> C) (l : list B) :
  concat (map (fun b => [f b]) l) = map f l.
Proof. induction l as [|b l IH]; [done|]. simpl. by rewrite IH. Qed.


(** Every round observed ran over a rearrangement of the list the loop was
    entered with, and ended as [fetch_all_rss] says for that order. *)
Lemma async_fetch_loop_orders fuel n urllist g loop :
  Forall (fun r =>
            round_order r ≡ₚ urllist
            /\ exists k,
                 round_end r
                 = fetch_all_rss (env k) (round_order r) max_concurrent)
    (fst (async_fetch_loop fuel n urllist g max_concurrent loop env)).
Proof.
  revert n urllist g. induction fuel as [|fuel IH]; intros n urllist g.
  - constructor.
  - simpl. pose proof (shuffle_permutation urllist g) as Hperm.
    destruct (shuffle urllist g) as [urllist' g']. simpl in Hperm.
    assert (round_order
              (RoundObs urllist' (fetch_all_rss (env n) urllist' max_concurrent))
            ≡ₚ urllist
            /\ exists k,
                 round_end
                   (RoundObs urllist'
                      (fetch_all_rss (env n) urllist' max_concurrent))
                 = fetch_all_rss (env k)
                     (round_order
                        (RoundObs urllist'
                           (fetch_all_rss (env n) urllist' max_concurrent)))
                     max_concurrent) as Hfirst.
    { split; [exact Hperm | by exists n]. }
    destruct (fetch_all_rss (env n) urllist' max_concurrent)
      as [e| |traces] eqn:Hr.
    + by constructor.
    + by constructor.
    + destruct loop; simpl.
      * specialize (IH (S n) urllist' g').
        destruct (async_fetch_loop fuel (S n) urllist' g' max_concurrent
                    true env) as [rounds st].
        simpl in *. constructor; [done|].
        eapply Forall_impl; [exact IH|].
        intros r [Hp Hk]. split; [by rewrite Hp | done].
      * by constructor.
Qed.

Hypothesis has_slot : 0 < max_concurrent.
Hypothesis env_ordinary : forall n i, ordinary (env n i) = true.

(** Without the loop flag: one round, then the driver returns. *)
Lemma async_fetch_loop_once fuel n urllist g :
  async_fetch_loop (S fuel) n urllist g max_concurrent false env
  = ([RoundObs (fst (shuffle urllist g))
        (RoundDone (map fst (run_tasks (env n) (fst (shuffle urllist g)))))],
     Returned).
Proof.
  simpl. destruct (shuffle urllist g) as [urllist' g']. simpl.
  by rewrite (fetch_all_rss_done _ _ _ has_slot (env_ordinary n)).
Qed.

(** With the loop flag: a next round after every round, for as long as the
    driver is observed. *)
Lemma async_fetch_loop_forever fuel n urllist g :
  exists rounds,
    async_fetch_loop fuel n urllist g max_concurrent true env
    = (rounds, Running)
    /\ map round_order rounds = shuffled_orders fuel urllist g
    /\ forall k r,
         rounds !! k = Some r ->
         round_end r
         = RoundDone (map fst (run_tasks (env (n + k)%nat) (round_order r))).
Proof.
  revert n urllist g. induction fuel as [|fuel IH]; intros n urllist g.
  - exists []. by repeat split.
  - simpl. destruct (shuffle urllist g) as [urllist' g'].
    rewrite (fetch_all_rss_done _ _ _ has_slot (env_ordinary n)). simpl.
    destruct (IH (S n) urllist' g') as (rounds & -> & Horders & Hends).
    eexists. split; [reflexivity|]. split.
    + simpl. by rewrite Horders.
    + intros [|k] r; simpl.
      * intros [= <-]. simpl. by rewrite Nat.add_0_r.
      * intros Hk. rewrite (Hends k r Hk).
        by replace (S n + k)%nat with (n + S k)%nat by lia.
Qed.

End DriverRounds.

Section DriverClaims.

Lemma shuffled_orders_length {A : Type} k (x : list A) g :
  length (shuffled_orders k x g) = k.
Proof.
  revert x g. induction k as [|k IH]; intros x g; [done|].
  simpl. destruct (shuffle x g) as [x' g']. simpl. by rewrite IH.
Qed.

Lemma swap_lookup_other {A : Type} (x : list A) i j k :
  k <> i -> k <> j -> swap x i j !! k = x !! k.
Proof.
  intros Hi Hj. unfold swap.
  destruct (x !! i) as [a|]; [|done]. destruct (x !! j) as [b|]; [|done].
  rewrite list_lookup_insert_ne by done.
  by rewrite list_lookup_insert_ne.
Qed.

Lemma swap_lookup_first {A : Type} (x : list A) i j :
  (i < length x)%nat -> (j < length x)%nat -> swap x i j !! i = x !! j.
Proof.
  intros Hi Hj. unfold swap.
  destruct (lookup_lt_is_Some_2 x i Hi) as [a Ha].
  destruct (lookup_lt_is_Some_2 x j Hj) as [b Hb].
  rewrite Ha, Hb. destruct (decide (i = j)) as [->|Hne].
  - rewrite list_lookup_insert_eq; [congruence|].
    by rewrite length_insert.
  - rewrite list_lookup_insert_ne by done.
    by rewrite list_lookup_insert_eq.
Qed.

Lemma shuffle_from_above {A : Type} i (x : list A) g k :
  (i < k)%nat -> fst (shuffle_from i x g) !! k = x !! k.
Proof.
  revert x g. induction i as [|i IH]; intros x g Hk; [done|].
  simpl. rewrite IH by lia.
  apply swap_lookup_other; [lia|].
  pose proof (Nat.mod_upper_bound (g 0%nat) (S i + 1)). lia.
Qed.

(** The first exchange of [random.shuffle] settles the last place: it gets
    the element at the index drawn first. *)
Lemma shuffle_last {A : Type} (x : list A) g :
  x <> [] ->
  fst (shuffle x g) !! (length x - 1)%nat
  = x !! (g 0%nat mod length x)%nat.
Proof.
  intros Hne. unfold shuffle.
  destruct (length x - 1)%nat as [|i] eqn:Hlen.
  - simpl. assert (length x = 1%nat) as ->.
    { destruct x; [done|]. simpl in *. lia. }
    done.
  - simpl. rewrite shuffle_from_above by lia.
    assert (length x = (S i + 1)%nat) as Hx by lia.
    rewrite Hx. apply swap_lookup_first.
    + lia.
    + pose proof (Nat.mod_upper_bound (g 0%nat) (S i + 1)). lia.
Qed.

Lemma run_tasks_fetches outcomes urllist :
  fetches_of (RoundDone (map fst (run_tasks outcomes urllist)))
  = map EvGet urllist.
Proof.
  simpl. rewrite map_map. rewrite (run_tasks_requests outcomes urllist).
  apply concat_singletons.
Qed.

(** C8, as stated, fails: the cap is any integer the command line gives.
    With a cap of 0 and one URL the driver without the loop flag runs no
    complete round (the fresh round has no step and is not over, and the
    driver waits in it); with a cap of -1 it ends with the [ValueError] of
    the semaphore. *)
Lemma async_fetch_without_slot_completes_no_round :
  let u := VStr "https://a.example/feed" in
  let g : rng := fun _ => 0%nat in
  let env : nat -> nat -> get_outcome := fun _ _ => GetRaises ConnectError in
  async_fetch_loop 1 0 [u] g 0 false env
  = ([RoundObs [u] RoundBlocked], Blocked)
  /\ round_init [u] 0 = Ok (RoundState 0 [spawn u])
  /\ all_finished (RoundState 0 [spawn u]) = false
  /\ (forall s', step (RoundState 0 [spawn u]) s' -> False)
  /\ async_fetch_loop 1 0 [u] g (-1) false env
     = ([RoundObs [u]
           (RoundRaised (ValueError "Semaphore initial value must be >= 0"))],
        Raised (ValueError "Semaphore initial value must be >= 0")).
Proof.
  intros u g env. split; [reflexivity|]. split; [reflexivity|].
  split; [reflexivity|]. split; [|reflexivity].
  intros s'. by apply (round_blocked [u]).
Qed.

(** C8, amended: with a positive cap and no cancellation, the driver
    without the loop flag runs exactly one round, over the shuffled list,
    with one request per URL and every coroutine run to its end, and
    returns; with the loop flag it never returns: however long it is
    observed it has run one more round after each round, every round
    complete with one request per URL, the order of each round being the
    shuffle of the order the round before left (nothing else goes from one
    round to the next: a round's traces are those of its own order and its
    own responses). The shuffle rearranges the list by the numbers drawn:
    the last place gets the element at the index drawn first. Every state a
    round reaches can be run on to the state where all coroutines are over.
    A round over the empty list, for any cap from 0 on, is complete at once
    and sends no request. *)
Theorem async_fetch_rounds urllist g max_concurrent env :
  0 < max_concurrent ->
  (forall n i, ordinary (env n i) = true) ->
  (forall fuel,
     exists traces,
       async_fetch_loop (S fuel) 0 urllist g max_concurrent false env
       = ([RoundObs (fst (shuffle urllist g)) (RoundDone traces)], Returned)
       /\ traces
          = map fst (run_tasks (env 0%nat) (fst (shuffle urllist g)))
       /\ length traces = length urllist
       /\ fetches_of (RoundDone traces)
          = map EvGet (fst (shuffle urllist g)))
  /\ (forall fuel,
        exists rounds,
          async_fetch_loop fuel 0 urllist g max_concurrent true env
          = (rounds, Running)
          /\ length rounds = fuel
          /\ map round_order rounds = shuffled_orders fuel urllist g
          /\ forall k r,
               rounds !! k = Some r ->
               round_order r ≡ₚ urllist
               /\ round_end r
                  = RoundDone (map fst (run_tasks (env k) (round_order r)))
               /\ fetches_of (round_end r) = map EvGet (round_order r))
  /\ (forall (x : list value) g',
        x <> [] ->
        fst (shuffle x g') ≡ₚ x
        /\ fst (shuffle x g') !! (length x - 1)%nat
           = x !! (g' 0%nat mod length x)%nat)
  /\ (forall order s0 s,
        round_init order max_concurrent = Ok s0 ->
        rtc step s0 s ->
        exists s', rtc step s s' /\ all_finished s' = true)
  /\ (forall cap outcomes,
        0 <= cap ->
        fst (shuffle (@nil value) g) = []
        /\ fetch_all_rss outcomes [] cap = RoundDone []
        /\ fetches_of (fetch_all_rss outcomes [] cap) = []).
Proof.
  intros Hcap Henv. split; [|split; [|split; [|split]]].
  - intros fuel. eexists. split; [by apply async_fetch_loop_once|].
    split; [done|]. split.
    + rewrite length_map, run_tasks_length.
      apply Permutation_length, shuffle_permutation.
    + apply run_tasks_fetches.
  - intros fuel.
    destruct (async_fetch_loop_forever max_concurrent env Hcap Henv
                fuel 0 urllist g) as (rounds & Hrun & Horders & Hends).
    exists rounds. split; [done|]. split; [|split; [done|]].
    + rewrite <- (length_map round_order), Horders.
      apply shuffled_orders_length.
    + intros k r Hk.
      pose proof (async_fetch_loop_orders max_concurrent env fuel 0 urllist g
                    true) as Hall.
      rewrite Hrun in Hall. simpl in Hall. rewrite Forall_forall in Hall.
      destruct (Hall r (list_elem_of_lookup_2 _ _ _ Hk)) as [Hperm _].
      split; [done|]. rewrite (Hends k r Hk). split; [done|].
      apply run_tasks_fetches.
  - intros x g' Hne. split; [apply shuffle_permutation | by apply shuffle_last].
  - intros order s0 s Hinit Hreach.
    apply (round_can_finish max_concurrent); [done|].
    eapply slots_accounted_reachable; [exact Hreach|].
    by eapply slots_accounted_init.
  - intros cap outcomes Hc. split; [reflexivity|].
    by rewrite (fetch_all_rss_empty outcomes cap Hc).
Qed.

Lemma async_fetch_rounds_witness :
  let u1 := VStr "https://a.example/feed" in
  let u2 := VStr "https://b.example/feed" in
  let g : rng := fun _ => 0%nat in
  let env : nat -> nat -> get_outcome := fun _ _ => GetRaises ConnectError in
  exists traces,
    async_fetch_loop 1 0 [u1; u2] g 5 false env
    = ([RoundObs (fst (shuffle [u1; u2] g)) (RoundDone traces)], Returned)
    /\ traces = map fst (run_tasks (env 0%nat) (fst (shuffle [u1; u2] g)))
    /\ length traces = length [u1; u2]
    /\ fetches_of (RoundDone traces) = map EvGet (fst (shuffle [u1; u2] g)).
Proof.
  intros u1 u2 g env.
  apply (proj1 (async_fetch_rounds [u1; u2] g 5 env eq_refl
                  (fun _ _ => eq_refl)) 0%nat).
Defined.




End DriverClaims.

(** ** Further properties of the loader *)

Section LoaderFailures.

Lemma collect_items_fails items1 urls1 item items2 e urllist :
  Forall2 child_url items1 urls1 ->
  subscript item "@xmlUrl" = Raise e ->
  collect_items (items1 ++ item :: items2) urllist = Raise e.
Proof.
  intros H He. revert urllist.
  induction H as [|it u items urls Hc _ IH]; intros urllist; simpl.
  - by rewrite He.
  - destruct Hc as [c u Hu]. simpl. rewrite Hu. simpl. apply IH.
Qed.

Lemma not_mapping_subscript line key :
  is_dict line = false -> subscript line key = Raise TypeError.
Proof. by destruct line. Qed.

Lemma collect_groups_fails pre line post urls log e :
  groups_yield pre urls log ->
  group_fails line e ->
  forall urllist log0,
    collect_groups (pre ++ line :: post) urllist log0
    = (log0 ++ log, Raise e).
Proof.
  intros Hy Hf.
  induction Hy as [|l rest urls log urls' log' Hl _ IH]; intros urllist log0.
  - rewrite app_nil_r. simpl.
    destruct Hf as [line Hd | g Ho | g items1 urls1 item items2 e Ho Hi He
                   | g c Ho Hc]; simpl.
    + by rewrite (not_mapping_subscript _ _ Hd).
    + by rewrite Ho.
    + rewrite Ho. simpl. by rewrite (collect_items_fails _ _ _ _ _ _ Hi He).
    + rewrite Ho. simpl. by rewrite Hc.
  - destruct Hl as [g' items urls Ho Hi | g' c u Ho Hu | g' v Ho Hl Hd];
      simpl.
    + rewrite Ho. simpl. rewrite (collect_items_children _ _ _ Hi).
      by rewrite IH.
    + rewrite Ho. simpl. rewrite Hu. by rewrite IH.
    + rewrite Ho, Hl, Hd. rewrite IH. by rewrite <- app_assoc.
Qed.

(** The children of a group all give their URL, or there is a first one that
    does not. *)
Lemma children_dichotomy items :
  (exists urls, Forall2 child_url items urls)
  \/ (exists items1 urls1 item items2 e,
        items = items1 ++ item :: items2
        /\ Forall2 child_url items1 urls1
        /\ subscript item "@xmlUrl" = Raise e).
Proof.
  induction items as [|item items IH].
  - left. by exists [].
  - destruct (subscript item "@xmlUrl") as [u|e] eqn:Hs.
    + assert (child_url item u) as Hc.
      { destruct item; try discriminate. simpl in Hs.
        destruct (dict_get "@xmlUrl" entries) eqn:Hg; [|discriminate].
        injection Hs as <-. by constructor. }
      destruct IH as [[urls Hu] | (i1 & u1 & it & i2 & e & -> & Hu & He)].
      * left. exists (u :: urls). by constructor.
      * right. exists (item :: i1), (u :: u1), it, i2, e.
        split; [done|]. split; [by constructor | done].
    + right. exists [], [], item, items, e. by repeat split.
Qed.

Lemma group_dichotomy line :
  (exists urls log, group_yield line urls log)
  \/ (exists e, group_fails line e).
Proof.
  destruct line as [| | | |items|g];
    try (right; exists TypeError; by apply fails_not_mapping).
  destruct (dict_get "outline" g) as [inner|] eqn:Ho.
  - destruct inner as [| b | n | s |items|c].
    + left. eexists _, _. by eapply yield_anomalous.
    + left. eexists _, _. by eapply yield_anomalous.
    + left. eexists _, _. by eapply yield_anomalous.
    + left. eexists _, _. by eapply yield_anomalous.
    + destruct (children_dichotomy items)
        as [[urls Hu] | (i1 & u1 & it & i2 & e & -> & Hu & He)].
      * left. eexists _, _. by eapply yield_multi.
      * right. exists e. by eapply fails_child.
    + destruct (dict_get "@xmlUrl" c) as [u|] eqn:Hc.
      * left. eexists _, _. by eapply yield_single.
      * right. eexists. by eapply fails_only_child.
  - right. eexists. by apply fails_no_outline.
Qed.

Lemma groups_dichotomy lines :
  (exists urls log, groups_yield lines urls log)
  \/ (exists pre line post urls log e,
        lines = pre ++ line :: post
        /\ groups_yield pre urls log
        /\ group_fails line e).
Proof.
  induction lines as [|line lines IH].
  - left. exists [], []. constructor.
  - destruct (group_dichotomy line) as [(urls & log & Hy) | [e He]].
    + destruct IH as [(urls' & log' & Hys)
                     | (pre & l & post & urls' & log' & e & -> & Hys & He)].
      * left. eexists _, _. by econstructor.
      * right. exists (line :: pre), l, post, (urls ++ urls'), (log ++ log'), e.
        split; [done|]. split; [by econstructor | done].
    + right. exists [], line, lines, [], [], e.
      split; [done|]. split; [constructor | done].
Qed.

(** X1: when a key is missing on the way to the outline, so that
    [body["opml"]["body"]["outline"]] raises [KeyError], [fetch_opml] raises
    the format error with nothing logged, and [async_fetch] raises it
    without running a round. *)
Theorem fetch_opml_missing_structure
    body key max_concurrent loop env g fuel :
  find_outline body = Raise (KeyError key) ->
  fetch_opml body = ([], Raise format_error)
  /\ async_fetch body max_concurrent loop env g fuel
     = ([], ([], Raised format_error)).
Proof.
  intros H. pose proof (fetch_opml_missing_key _ _ H) as Hf.
  split; [exact Hf|]. unfold async_fetch. by rewrite Hf.
Qed.

Lemma fetch_opml_missing_structure_witness :
  let body :=
    VDict [("opml", VDict [("@version", VStr "2.0");
                           ("head", VDict [("title", VStr "feeds")])])] in
  let env : nat -> nat -> get_outcome := fun _ _ => GetRaises ConnectError in
  fetch_opml body = ([], Raise format_error)
  /\ async_fetch body 5 true env (fun _ => 0%nat) 3
     = ([], ([], Raised format_error)).
Proof.
  intros body env.
  apply (fetch_opml_missing_structure body "body" 5 true env
           (fun _ => 0%nat) 3).
  reflexivity.
Defined.

(** X2: the first group the loop cannot get through decides the call: the
    URLs collected from the groups before it are dropped, the records logged
    for them stay, a [KeyError] (no ["outline"] entry, a child without
    ["@xmlUrl"]) is raised as the format error and a [TypeError] (a group or
    a child that is not a mapping) goes through unchanged, whatever follows
    the group. *)
Theorem fetch_opml_first_bad_group body pre line post urls log e :
  find_outline body = Ok (VList (pre ++ line :: post)) ->
  groups_yield pre urls log ->
  group_fails line e ->
  fetch_opml body = (log, Raise (reported e)).
Proof.
  intros Ho Hy Hf. unfold fetch_opml, fetch_opml_try. rewrite Ho. simpl.
  rewrite (collect_groups_fails _ _ post _ _ _ Hy Hf). simpl.
  unfold reported. by destruct (is_KeyError e).
Qed.

Lemma fetch_opml_first_bad_group_witness :
  let odd := VDict [("@text", VStr "odd"); ("outline", VStr "text")] in
  let bad :=
    VDict [("@text", VStr "news");
           ("outline", VList [
              VDict [("@xmlUrl", VStr "https://a.example/feed")];
              VDict [("@text", VStr "no url")]])] in
  let last :=
    VDict [("outline", VDict [("@xmlUrl", VStr "https://c.example/feed")])] in
  fetch_opml (opml_of_outline (VList [odd; bad; last]))
  = ([LogRecord ERROR false (MsgOpmlFormat odd)], Raise format_error).
Proof.
  intros odd bad last.
  refine (fetch_opml_first_bad_group
            (opml_of_outline (VList [odd; bad; last]))
            [odd] bad [last] [] [LogRecord ERROR false (MsgOpmlFormat odd)]
            (KeyError "@xmlUrl") eq_refl _ _).
  - refine (yield_cons odd [] [] [LogRecord ERROR false (MsgOpmlFormat odd)]
              [] [] _ yield_nil).
    by eapply (yield_anomalous _ (VStr "text")).
  - unfold bad.
    eapply (fails_child _ [VDict [("@xmlUrl", VStr "https://a.example/feed")]]
              [VStr "https://a.example/feed"]
              (VDict [("@text", VStr "no url")]) []);
      [reflexivity | repeat constructor | reflexivity].
Defined.

(** X3: [fetch_opml] never returns a partial list: when it returns, the
    outline could be iterated and every group was either well-formed or
    skipped with a record, so the list holds the URLs of all well-formed
    groups in document order and the log one record per skipped group. *)
Theorem fetch_opml_returns_complete body log urls :
  fetch_opml body = (log, Ok urls) ->
  exists outline lines,
    find_outline body = Ok outline
    /\ iterate outline = Ok lines
    /\ groups_yield lines urls log.
Proof.
  unfold fetch_opml, fetch_opml_try.
  destruct (find_outline body) as [outline|e] eqn:Ho; simpl.
  2: { destruct (is_KeyError e); discriminate. }
  destruct (iterate outline) as [lines|e] eqn:Hi; simpl.
  2: { destruct (is_KeyError e); discriminate. }
  intros H. exists outline, lines. split; [done|]. split; [done|].
  destruct (groups_dichotomy lines)
    as [(urls' & log' & Hy)
       | (pre & line & post & urls' & log' & e & -> & Hy & Hf)].
  - rewrite (collect_groups_yield _ _ _ Hy) in H. simpl in H.
    by injection H as <- <-.
  - rewrite (collect_groups_fails _ _ post _ _ _ Hy Hf) in H. simpl in H.
    destruct (is_KeyError e); discriminate.
Qed.

Lemma fetch_opml_returns_complete_witness :
  let odd := VDict [("@text", VStr "odd"); ("outline", VNone)] in
  let blogs :=
    VDict [("outline", VDict [("@xmlUrl", VStr "https://c.example/feed")])] in
  exists outline lines,
    find_outline (opml_of_outline (VList [odd; blogs])) = Ok outline
    /\ iterate outline = Ok lines
    /\ groups_yield lines [VStr "https://c.example/feed"]
         [LogRecord ERROR false (MsgOpmlFormat odd)].
Proof.
  intros odd blogs.
  apply (fetch_opml_returns_complete (opml_of_outline (VList [odd; blogs]))).
  reflexivity.
Defined.

End LoaderFailures.

(** ** Further properties of the fetcher *)

Section FetcherOutcomes.

Lemma not_Exception_cancelled e :
  is_Exception e = false -> e = CancelledError.
Proof. by destruct e. Qed.

Lemma fetch_rss_guarded_raises url wait_time o e :
  fetch_rss_guarded url wait_time o = Raise e ->
  e = CancelledError /\ injected o = Some CancelledError.
Proof.
  unfold fetch_rss_guarded.
  destruct (fetch_rss_try url wait_time o) as [ok|e'] eqn:Ht;
    [discriminate|].
  destruct (is_Exception e') eqn:He; [discriminate|]. intros [= <-].
  apply not_Exception_cancelled in He as ->. split; [done|].
  destruct (ordinary o) eqn:Ho.
  - by pose proof (fetch_rss_try_raises_Exception _ _ _ _ Ho Ht).
  - unfold ordinary in Ho. destruct (injected o) as [e0|]; [|done].
    by apply not_Exception_cancelled in Ho as ->.
Qed.

(** X4: a status outside 2xx that is not 502, 530, 401 or 403 makes
    [raise_for_status] raise: whatever the body, [fetch_rss] logs the status
    error with the traceback, sleeps three base waits and returns. *)
Theorem fetch_rss_other_status url wait_time resp :
  cooldown_status (status_code resp) = false ->
  is_success (status_code resp) = false ->
  fetch_rss url wait_time (GetReturns resp)
  = ([EvAcquire; EvGet url;
      EvLog (LogRecord ERROR true
               (MsgFailed url (HTTPStatusError (status_code resp))));
      EvSleep (wait_time * 3); EvRelease], Ok tt).
Proof.
  intros Hc Hs. unfold fetch_rss, fetch_rss_guarded.
  by rewrite (fetch_rss_try_bad_status _ _ _ Hc Hs).
Qed.

Lemma fetch_rss_other_status_witness :
  let url := VStr "https://a.example/feed" in
  let resp :=
    Response 404 (Ok (VDict [("title", VStr "A"); ("home_page_url", VStr "h")]))
      "{}" in
  fetch_rss url 3 (GetReturns resp)
  = ([EvAcquire; EvGet url;
      EvLog (LogRecord ERROR true (MsgFailed url (HTTPStatusError 404)));
      EvSleep (3 * 3); EvRelease], Ok tt).
Proof.
  intros url resp.
  apply (fetch_rss_other_status url 3 resp); reflexivity.
Defined.

Lemma fetch_rss_raises url wait_time o e :
  snd (fetch_rss url wait_time o) = Raise e ->
  e = CancelledError
  /\ injected o = Some e
  /\ fst (fetch_rss url wait_time o) = [EvAcquire; EvGet url; EvRelease].
Proof.
  unfold fetch_rss.
  destruct (fetch_rss_guarded url wait_time o) as [[r secs]|e'] eqn:Hg;
    simpl; [done|].
  intros [= <-]. by destruct (fetch_rss_guarded_raises _ _ _ _ Hg) as [-> ->].
Qed.

(** X5: a cancellation (any exception that is not an [Exception]) raised
    while the request is awaited, or by decoding the body of a 2xx response,
    is not swallowed by the handlers: it leaves [fetch_rss], nothing is
    logged and nothing is slept, and the slot is released all the same. *)
Theorem fetch_rss_lets_cancellation_through url wait_time e :
  is_Exception e = false ->
  fetch_rss url wait_time (GetRaises e)
  = ([EvAcquire; EvGet url; EvRelease], Raise e)
  /\ (forall resp,
        is_success (status_code resp) = true ->
        json resp = Raise e ->
        fetch_rss url wait_time (GetReturns resp)
        = ([EvAcquire; EvGet url; EvRelease], Raise e)).
Proof.
  intros He. split.
  - unfold fetch_rss, fetch_rss_guarded. simpl. by rewrite He.
  - intros resp Hs Hj. unfold fetch_rss, fetch_rss_guarded.
    rewrite (fetch_rss_try_success _ _ _ Hs), Hj.
    assert (is_JSONDecodeError e = false) as -> by by destruct e.
    by rewrite He.
Qed.

Lemma fetch_rss_lets_cancellation_through_witness :
  let url := VStr "https://a.example/feed" in
  fetch_rss url 3 (GetRaises CancelledError)
  = ([EvAcquire; EvGet url; EvRelease], Raise CancelledError).
Proof.
  intros url.
  apply (proj1 (fetch_rss_lets_cancellation_through url 3 CancelledError
                  eq_refl)).
Defined.

(** X6: the sleep after a fetch is fixed by the level of the record written
    for it: one base wait after an info record, two after a debug record,
    three after a warning or an error record; and the traceback is asked
    for with error records only. *)
Theorem fetch_rss_cooldown_by_level url wait_time o r seconds :
  fetch_rss_guarded url wait_time o = Ok (r, seconds) ->
  seconds = wait_time * cooldown_factor (log_level r)
  /\ exc_info r = is_ERROR (log_level r).
Proof.
  unfold fetch_rss_guarded, fetch_rss_try, raise_for_status.
  destruct o as [e|resp]; simpl.
  - destruct (is_Exception e); [|done]. intros [= <- <-]. simpl. split; done.
  - destruct ((status_code resp =? 502) || (status_code resp =? 530)).
    { intros [= <- <-]. simpl. split; done. }
    destruct ((status_code resp =? 403) || (status_code resp =? 401)).
    { intros [= <- <-]. simpl. split; done. }
    destruct (is_success (status_code resp)); simpl.
    2: { intros [= <- <-]. simpl. split; done. }
    destruct (json resp) as [data|e].
    + destruct (subscript data "title") as [title|e1] eqn:Ht; simpl.
      * destruct (subscript data "home_page_url") as [home|e2] eqn:Hh; simpl.
        -- intros [= <- <-]. simpl. split; [lia | done].
        -- rewrite (subscript_raises_Exception _ _ _ Hh).
           intros [= <- <-]. simpl. split; done.
      * rewrite (subscript_raises_Exception _ _ _ Ht).
        intros [= <- <-]. simpl. split; done.
    + destruct (is_JSONDecodeError e).
      * intros [= <- <-]. simpl. split; done.
      * destruct (is_Exception e); [|done].
        intros [= <- <-]. simpl. split; done.
Qed.

Lemma fetch_rss_cooldown_by_level_witness :
  let url := VStr "https://a.example/feed" in
  let r := LogRecord WARNING false (MsgJsonDecode url "<html>") in
  9 = 3 * cooldown_factor (log_level r)
  /\ exc_info r = is_ERROR (log_level r).
Proof.
  intros url r.
  apply (fetch_rss_cooldown_by_level url 3
           (GetReturns (Response 200 (Raise JSONDecodeError) "<html>"))).
  reflexivity.
Defined.

(** X7: for a status of 502, 530, 401 or 403 the body is never looked at:
    what [fetch_rss] does is the same whatever [resp.json()] would give and
    whatever the text is. *)
Theorem fetch_rss_cooldown_ignores_body
    url wait_time status body1 text1 body2 text2 :
  cooldown_status status = true ->
  fetch_rss url wait_time (GetReturns (Response status body1 text1))
  = fetch_rss url wait_time (GetReturns (Response status body2 text2)).
Proof.
  intros Hc. unfold fetch_rss, fetch_rss_guarded, fetch_rss_try. simpl.
  unfold cooldown_status in Hc.
  destruct (status =? 502), (status =? 530), (status =? 403),
    (status =? 401); simpl in *; done.
Qed.

Lemma fetch_rss_cooldown_ignores_body_witness :
  let url := VStr "https://a.example/feed" in
  fetch_rss url 3
    (GetReturns (Response 403 (Ok (VDict [("title", VStr "A")])) "{}"))
  = fetch_rss url 3
      (GetReturns (Response 403 (Raise CancelledError) "Forbidden")).
Proof.
  intros url.
  apply (fetch_rss_cooldown_ignores_body url 3 403). reflexivity.
Defined.

End FetcherOutcomes.

(** ** Further properties of a round and of the driver *)

Section RoundRuns.

Lemma finished_hold_nothing ts :
  forallb is_finished ts = true -> existsb holds_slot ts = false.
Proof.
  induction ts as [|[url ph tr] ts IH]; [done|]. simpl.
  intros H. apply andb_true_iff in H as [Hf Hts].
  destruct ph; try discriminate. simpl. by apply IH.
Qed.

(** X8: in every state a round reaches the semaphore's counter stays
    between 0 and the value it was created with, and when all coroutines
    are over every slot has been given back. *)
Theorem semaphore_counter_bounds urllist max_concurrent s0 s :
  round_init urllist max_concurrent = Ok s0 ->
  rtc step s0 s ->
  0 <= sem_value s <= max_concurrent
  /\ (all_finished s = true -> sem_value s = max_concurrent).
Proof.
  intros Hinit Hreach.
  pose proof (slots_accounted_reachable max_concurrent _ _ Hreach
                (slots_accounted_init _ _ _ Hinit)) as [Hsum Hpos].
  unfold slots_held in Hsum. split; [lia|].
  intros Hfin. unfold all_finished in Hfin.
  rewrite (none_counted _ _ (finished_hold_nothing _ Hfin)) in Hsum. lia.
Qed.

Lemma semaphore_counter_bounds_witness :
  let u1 := VStr "https://a.example/feed" in
  let u2 := VStr "https://b.example/feed" in
  let s :=
    RoundState 0
      [Task u1 InFlight [EvAcquire; EvGet u1]; Task u2 Waiting []] in
  0 <= sem_value s <= 1
  /\ (all_finished s = true -> sem_value s = 1).
Proof.
  intros u1 u2 s.
  apply (semaphore_counter_bounds [u1; u2] 1
           (RoundState 1 [spawn u1; spawn u2]) s).
  - reflexivity.
  - eapply rtc_l; [|apply rtc_refl].
    apply (step_acquire 1 [] u1 [] [spawn u2]). lia.
Defined.

(** X9: with a slot to run in, a round of N coroutines takes at most 3 N
    steps of the event loop, and it stops only when all coroutines are
    over: it cannot get stuck half-way. *)
Theorem round_runs_end urllist max_concurrent s0 n s :
  0 < max_concurrent ->
  round_init urllist max_concurrent = Ok s0 ->
  nsteps step n s0 s ->
  (n <= 3 * length urllist)%nat
  /\ ((forall s', step s s' -> False) -> all_finished s = true).
Proof.
  intros Hcap Hinit Hrun. split.
  - pose proof (nsteps_remaining _ _ _ Hrun) as Hn.
    rewrite (remaining_init _ _ _ Hinit) in Hn. lia.
  - intros Hstuck. destruct (all_finished s) eqn:Hfin; [done|].
    destruct (round_progress max_concurrent s Hcap) as [s' Hstep];
      [|done|by destruct (Hstuck s')].
    eapply slots_accounted_reachable; [by eapply rtc_nsteps_2|].
    by eapply slots_accounted_init.
Qed.

Lemma round_runs_end_witness :
  let u1 := VStr "https://a.example/feed" in
  let s := RoundState 0 [Task u1 InFlight [EvAcquire; EvGet u1]] in
  (1 <= 3 * length [u1])%nat
  /\ ((forall s', step s s' -> False) -> all_finished s = true).
Proof.
  intros u1 s.
  apply (round_runs_end [u1] 1 (RoundState 1 [spawn u1]) 1 s).
  - lia.
  - reflexivity.
  - apply nsteps_once. apply (step_acquire 1 [] u1 [] []). lia.
Defined.

Lemma fetch_all_rss_zero_cap outcomes urllist :
  urllist <> [] -> fetch_all_rss outcomes urllist 0 = RoundBlocked.
Proof. by destruct urllist. Qed.

Lemma shuffle_nonempty (urllist : list value) g :
  urllist <> [] -> fst (shuffle urllist g) <> [].
Proof.
  intros Hne Hnil. pose proof (shuffle_permutation urllist g) as Hp.
  rewrite Hnil in Hp. by apply Permutation_nil_l in Hp.
Qed.

(** X10: with a cap of 0 and a list that is not empty no coroutine ever
    gets past the semaphore: the fresh round has no step, the round never
    ends, and the driver stays in its first round, with or without the
    loop flag. *)
Theorem zero_cap_blocks urllist outcomes :
  urllist <> [] ->
  (forall s0 s', round_init urllist 0 = Ok s0 -> step s0 s' -> False)
  /\ fetch_all_rss outcomes urllist 0 = RoundBlocked
  /\ (forall fuel n g loop env,
        async_fetch_loop (S fuel) n urllist g 0 loop env
        = ([RoundObs (fst (shuffle urllist g)) RoundBlocked], Blocked)).
Proof.
  intros Hne. split; [|split].
  - intros s0 s'. apply round_blocked.
  - by apply fetch_all_rss_zero_cap.
  - intros fuel n g loop env. simpl.
    pose proof (shuffle_nonempty urllist g Hne) as Hs.
    destruct (shuffle urllist g) as [order g']. simpl in *.
    by rewrite (fetch_all_rss_zero_cap (env n) order Hs).
Qed.

Lemma zero_cap_blocks_witness :
  let u1 := VStr "https://a.example/feed" in
  let env : nat -> nat -> get_outcome := fun _ _ => GetRaises ConnectError in
  async_fetch_loop 4 0 [u1] (fun _ => 0%nat) 0 true env
  = ([RoundObs (fst (shuffle [u1] (fun _ => 0%nat))) RoundBlocked], Blocked).
Proof.
  intros u1 env.
  apply (proj2 (proj2 (zero_cap_blocks [u1] (env 0%nat)
                         ltac:(discriminate)))).
Defined.

(** X11: a negative cap makes [asyncio.Semaphore] raise [ValueError] before
    any coroutine exists, even for an empty list: the round sends no
    request, and the driver ends with that exception in its first round,
    with or without the loop flag. *)
Theorem negative_cap_raises urllist max_concurrent outcomes :
  max_concurrent < 0 ->
  (exists msg,
     round_init urllist max_concurrent = Raise (ValueError msg)
     /\ fetch_all_rss outcomes urllist max_concurrent
        = RoundRaised (ValueError msg)
     /\ forall fuel n g loop env,
          async_fetch_loop (S fuel) n urllist g max_concurrent loop env
          = ([RoundObs (fst (shuffle urllist g))
                (RoundRaised (ValueError msg))],
             Raised (ValueError msg)))
  /\ fetches_of (fetch_all_rss outcomes urllist max_concurrent) = [].
Proof.
  intros Hneg. apply Z.ltb_lt in Hneg.
  assert (forall out order,
    fetch_all_rss out order max_concurrent
    = RoundRaised (ValueError "Semaphore initial value must be >= 0")) as Hr.
  { intros out order. unfold fetch_all_rss, round_init. by rewrite Hneg. }
  split.
  - eexists. split; [|split].
    + unfold round_init. by rewrite Hneg.
    + apply Hr.
    + intros fuel n g loop env. simpl.
      destruct (shuffle urllist g) as [order g']. simpl. by rewrite Hr.
  - by rewrite Hr.
Qed.

Lemma negative_cap_raises_witness :
  let outcomes : nat -> get_outcome := fun _ => GetRaises ConnectError in
  fetches_of (fetch_all_rss outcomes [VStr "https://a.example/feed"] (-1))
  = [].
Proof.
  intros outcomes.
  apply (proj2 (negative_cap_raises [VStr "https://a.example/feed"] (-1)
                  outcomes ltac:(lia))).
Defined.

(** *** Rounds with cancellation at every await *)

Lemma slots_accounted_step_or_cancel max_concurrent s s' :
  step_or_cancel s s' ->
  slots_accounted max_concurrent s ->
  slots_accounted max_concurrent s'.
Proof.
  destruct 1 as [s s' Hstep| |]; [by apply slots_accounted_step| |];
    unfold slots_accounted, slots_held; simpl; rewrite !count_middle; simpl;
    lia.
Qed.

(** The bound on the requests in flight also holds when coroutines are
    cancelled while they wait or sleep. *)
Lemma in_flight_bounded_with_cancellation urllist max_concurrent s0 s :
  round_init urllist max_concurrent = Ok s0 ->
  rtc step_or_cancel s0 s ->
  in_flight s <= max_concurrent /\ 0 <= sem_value s <= max_concurrent.
Proof.
  intros Hinit Hreach.
  assert (slots_accounted max_concurrent s) as [Hsum Hpos].
  { pose proof (slots_accounted_init _ _ _ Hinit) as H0.
    clear Hinit. induction Hreach as [|s1 s2 s3 Hstep _ IH]; [done|].
    apply IH. by eapply slots_accounted_step_or_cancel. }
  pose proof (in_flight_le_held s). unfold slots_held in *. lia.
Qed.

Lemma task_sound_init urllist max_concurrent s0 :
  round_init urllist max_concurrent = Ok s0 ->
  Forall task_sound (tasks s0) /\ map task_url (tasks s0) = urllist.
Proof.
  intros Hinit.
  destruct (round_consistent_init _ _ _ Hinit) as [Hcons Hurls].
  split; [|done]. eapply Forall_impl; [exact Hcons|].
  intros [url ph tr]. unfold task_sound, task_consistent. simpl.
  destruct ph as [| |secs|[r|e]]; try done.
  intros [o Ho]. right.
  pose proof (fetch_rss_requests url default_wait_time o) as H.
  by rewrite Ho in H.
Qed.

Lemma task_sound_step urllist s s' :
  step_or_cancel s s' ->
  Forall task_sound (tasks s) /\ map task_url (tasks s) = urllist ->
  Forall task_sound (tasks s') /\ map task_url (tasks s') = urllist.
Proof.
  destruct 1 as [s s' Hstep | v pre url tr post | v pre url tr post secs].
  - destruct Hstep as [v pre url tr post Hv | v pre url tr post o r secs Hg
                      | v pre url tr post o e Hg | v pre url tr post secs];
      simpl; rewrite !Forall_app, !Forall_cons, !map_app; simpl;
      intros [(Hpre & Ht & Hpost) Hurls]; (split; [|exact Hurls]);
      (split; [exact Hpre|]); (split; [|exact Hpost]);
      unfold task_sound, task_consistent in *; simpl in *.
    + by rewrite Ht.
    + exists o, r. by rewrite Ht.
    + right. by rewrite Ht.
    + destruct Ht as (o & r & Hg & ->). exists o. unfold fetch_rss.
      by rewrite Hg.
  - simpl. rewrite !Forall_app, !Forall_cons, !map_app. simpl.
    intros [(Hpre & Ht & Hpost) Hurls]. split; [|exact Hurls].
    split; [exact Hpre|]. split; [|exact Hpost].
    unfold task_sound, task_consistent in *. simpl in *. left. by rewrite Ht.
  - simpl. rewrite !Forall_app, !Forall_cons, !map_app. simpl.
    intros [(Hpre & Ht & Hpost) Hurls]. split; [|exact Hurls].
    split; [exact Hpre|]. split; [|exact Hpost].
    unfold task_sound, task_consistent in *. simpl in *.
    destruct Ht as (o & r & Hg & ->). by right.
Qed.

Lemma task_sound_reachable urllist max_concurrent s0 s :
  round_init urllist max_concurrent = Ok s0 ->
  rtc step_or_cancel s0 s ->
  Forall task_sound (tasks s) /\ map task_url (tasks s) = urllist.
Proof.
  intros Hinit Hreach. pose proof (task_sound_init _ _ _ Hinit) as H0.
  clear Hinit. induction Hreach as [|s1 s2 s3 Hstep _ IH]; [done|].
  apply IH. by eapply task_sound_step.
Qed.

Lemma returned_tasks_run ts :
  Forall task_sound ts ->
  forallb returned ts = true ->
  exists outcomes, map task_run ts = run_tasks outcomes (map task_url ts).
Proof.
  induction 1 as [|t ts Ht _ IH]; simpl.
  - intros _. by exists (fun _ => GetRaises ConnectError).
  - intros H. apply andb_true_iff in H as [Hret Hrest].
    destruct (IH Hrest) as [outcomes Hruns].
    destruct t as [url ph tr]. destruct ph as [| |secs|[r|e]];
      try discriminate.
    destruct Ht as [o Ho]. simpl in Ho.
    exists (fun i => match i with O => o | S j => outcomes j end).
    simpl. unfold task_run at 1. simpl. by rewrite Ho, Hruns.
Qed.

(** X12: the order in which the event loop resumes the coroutines does not
    show in what they did. In any state a round reaches, cancellations at
    any await included, the coroutines are those of the list, in its order,
    and a coroutine that returned has the trace of [fetch_rss] run alone on
    its URL for the outcome its request had; when all of them returned, the
    round is the list of these runs. *)
Theorem round_traces_independent_of_interleaving
    urllist max_concurrent s0 s :
  round_init urllist max_concurrent = Ok s0 ->
  rtc step_or_cancel s0 s ->
  map task_url (tasks s) = urllist
  /\ Forall (fun t =>
               forall r,
                 task_phase t = Finished (Ok r) ->
                 exists o,
                   fetch_rss (task_url t) default_wait_time o
                   = (task_trace t, Ok r)) (tasks s)
  /\ (forallb returned (tasks s) = true ->
      exists outcomes, map task_run (tasks s) = run_tasks outcomes urllist).
Proof.
  intros Hinit Hreach.
  destruct (task_sound_reachable _ _ _ _ Hinit Hreach) as [Hsound Hurls].
  split; [done|]. split.
  - eapply Forall_impl; [exact Hsound|].
    intros [url ph tr]. unfold task_sound, task_consistent. simpl.
    intros Ht r ->. exact Ht.
  - intros Hret. rewrite <- Hurls. by apply returned_tasks_run.
Qed.

Lemma round_traces_independent_of_interleaving_witness :
  let u1 := VStr "https://a.example/feed" in
  let u2 := VStr "https://b.example/feed" in
  let r := LogRecord ERROR true (MsgFailed u1 ConnectError) in
  let s :=
    RoundState 1
      [Task u1 (Finished (Ok tt))
         [EvAcquire; EvGet u1; EvLog r; EvSleep 9; EvRelease];
       Task u2 (Finished (Raise CancelledError)) []] in
  map task_url (tasks s) = [u1; u2]
  /\ Forall (fun t =>
               forall r,
                 task_phase t = Finished (Ok r) ->
                 exists o,
                   fetch_rss (task_url t) default_wait_time o
                   = (task_trace t, Ok r)) (tasks s)
  /\ (forallb returned (tasks s) = true ->
      exists outcomes, map task_run (tasks s) = run_tasks outcomes [u1; u2]).
Proof.
  intros u1 u2 r s.
  apply (round_traces_independent_of_interleaving [u1; u2] 1
           (RoundState 1 [spawn u1; spawn u2]) s).
  - reflexivity.
  - eapply rtc_l;
      [apply uninterrupted, (step_acquire 1 [] u1 [] [spawn u2]); lia|].
    eapply rtc_l;
      [apply (cancel_waiting 0 [Task u1 InFlight [EvAcquire; EvGet u1]]
                u2 [] [])|].
    eapply rtc_l;
      [apply uninterrupted,
         (step_respond 0 [] u1 [EvAcquire; EvGet u1]
            [Task u2 (Finished (Raise CancelledError)) []]
            (GetRaises ConnectError) r 9); reflexivity|].
    eapply rtc_l;
      [apply uninterrupted,
         (step_wake 0 [] u1 [EvAcquire; EvGet u1; EvLog r]
            [Task u2 (Finished (Raise CancelledError)) []] 9)|].
    apply rtc_refl.
Defined.

(** X13: at every moment of a round, cancellations at any await included, a
    coroutine has sent no request while it waits for a slot, exactly one,
    for its own URL, while its request is in flight, while it sleeps and
    when it has returned, and none or that one when it was cancelled: no
    entry of the list is requested twice within a round. *)
Theorem one_request_per_coroutine urllist max_concurrent s0 s :
  round_init urllist max_concurrent = Ok s0 ->
  rtc step_or_cancel s0 s ->
  Forall (fun t =>
            match task_phase t with
            | Waiting => requests (task_trace t) = []
            | Finished (Raise _) =>
                requests (task_trace t) = []
                \/ requests (task_trace t) = [EvGet (task_url t)]
            | _ => requests (task_trace t) = [EvGet (task_url t)]
            end) (tasks s).
Proof.
  intros Hinit Hreach.
  destruct (task_sound_reachable _ _ _ _ Hinit Hreach) as [Hsound _].
  eapply Forall_impl; [exact Hsound|].
  intros [url ph tr]. unfold task_sound, task_consistent. simpl.
  destruct ph as [| |secs|[r|e]].
  - by intros ->.
  - by intros ->.
  - by intros (o & r & _ & ->).
  - intros [o Ho]. pose proof (fetch_rss_requests url default_wait_time o) as H.
    by rewrite Ho in H.
  - done.
Qed.

Lemma one_request_per_coroutine_witness :
  let u1 := VStr "https://a.example/feed" in
  let u2 := VStr "https://b.example/feed" in
  let s :=
    RoundState 0
      [Task u1 InFlight [EvAcquire; EvGet u1];
       Task u2 (Finished (Raise CancelledError)) []] in
  Forall (fun t =>
            match task_phase t with
            | Waiting => requests (task_trace t) = []
            | Finished (Raise _) =>
                requests (task_trace t) = []
                \/ requests (task_trace t) = [EvGet (task_url t)]
            | _ => requests (task_trace t) = [EvGet (task_url t)]
            end) (tasks s).
Proof.
  intros u1 u2 s.
  apply (one_request_per_coroutine [u1; u2] 1
           (RoundState 1 [spawn u1; spawn u2]) s).
  - reflexivity.
  - eapply rtc_l;
      [apply uninterrupted, (step_acquire 1 [] u1 [] [spawn u2]); lia|].
    eapply rtc_l;
      [apply (cancel_waiting 0 [Task u1 InFlight [EvAcquire; EvGet u1]]
                u2 [] [])|].
    apply rtc_refl.
Defined.

Lemma gather_cancelled outcomes urllist i :
  (i < length urllist)%nat ->
  outcomes i = GetRaises CancelledError ->
  gather (run_tasks outcomes urllist) = RoundRaised CancelledError.
Proof.
  revert outcomes i.
  induction urllist as [|url rest IH]; intros outcomes i Hi Ho;
    [simpl in Hi; lia|].
  simpl.
  destruct (fetch_rss url default_wait_time (outcomes 0%nat))
    as [tr [[]|e]] eqn:Hrun.
  - destruct i as [|i].
    + rewrite Ho in Hrun. discriminate Hrun.
    + rewrite (IH (fun j => outcomes (S j)) i); [done | simpl in Hi; lia | done].
  - pose proof (fetch_rss_raises url default_wait_time (outcomes 0%nat) e)
      as Hr.
    rewrite Hrun in Hr. by destruct (Hr eq_refl) as [-> _].
Qed.

(** X14: a cancellation delivered to one request of a round ends the round
    with [CancelledError], and the driver with it, also under the loop flag:
    no further round is started. *)
Theorem cancellation_ends_driver
    urllist g max_concurrent loop env n i fuel :
  0 < max_concurrent ->
  (i < length urllist)%nat ->
  env n i = GetRaises CancelledError ->
  async_fetch_loop (S fuel) n urllist g max_concurrent loop env
  = ([RoundObs (fst (shuffle urllist g)) (RoundRaised CancelledError)],
     Raised CancelledError).
Proof.
  intros Hcap Hi Hc. simpl.
  pose proof (Permutation_length (shuffle_permutation urllist g)) as Hlen.
  destruct (shuffle urllist g) as [order g']. simpl in *.
  assert (fetch_all_rss (env n) order max_concurrent
          = RoundRaised CancelledError) as ->; [|done].
  unfold fetch_all_rss, round_init.
  destruct (max_concurrent <? 0) eqn:Hneg; [apply Z.ltb_lt in Hneg; lia|].
  simpl. destruct (max_concurrent =? 0) eqn:Hz; [apply Z.eqb_eq in Hz; lia|].
  simpl. apply (gather_cancelled _ _ i); [lia | done].
Qed.

Lemma cancellation_ends_driver_witness :
  let u1 := VStr "https://a.example/feed" in
  let u2 := VStr "https://b.example/feed" in
  let g : rng := fun _ => 0%nat in
  let env : nat -> nat -> get_outcome :=
    fun _ i =>
      match i with
      | O => GetRaises ConnectError
      | _ => GetRaises CancelledError
      end in
  async_fetch_loop 3 0 [u1; u2] g 5 true env
  = ([RoundObs (fst (shuffle [u1; u2] g)) (RoundRaised CancelledError)],
     Raised CancelledError).
Proof.
  intros u1 u2 g env.
  apply (cancellation_ends_driver [u1; u2] g 5 true env 0 1 2).
  - lia.
  - simpl. lia.
  - reflexivity.
Defined.

End RoundRuns.
